(** * My PDF Converter: the pagination arithmetic of [js/app.js]

    The development embeds the three converters of [js/app.js] that place
    content on PDF pages ([htmlStringToPdf], [convertTxt], [convertImage])
    and the file-type check ([getExtension], [isValidFile]); further on,
    the size on the file card ([formatBytes]), the download name
    ([showDownloadSection]), the choice of the converter ([convertFile])
    and the state of the page under its handlers.

    Numbers.  JavaScript numbers are modelled by exact rationals ([Q]):
    every product, sum and quotient is the mathematical one, so the model
    describes the run of the code up to IEEE-754 rounding.  The two agree
    on what a comparison or [Math.round] gives except at a tie: a height
    that is a whole number of pages to the last bit, a product that is
    half a row to the last bit.  The general statements on what
    [htmlStringToPdf] returns therefore keep the canvas away from such
    ties (see [HtmlStringToPdf.clear_of_page_ends]).  A quotient whose
    divisor is zero is ±Infinity or NaN in JavaScript; but for the NaN
    height of a canvas without rows or columns, the model does not follow
    such a run and reports it as [NonFinite].

    Documents.  A jsPDF document is modelled by the sequence of calls the
    code makes on it ([AddPage], [AddImage], [Text]); [pages_of] gives the
    pages such a sequence produces, starting from the single page that
    [new jsPDF] creates. *)

From Stdlib Require Import ZArith QArith Qround Lqa Lia.
From Stdlib Require Import String Ascii Bool List Sorted.
From Stdlib Require Import DecimalString.
Import ListNotations.

Local Open Scope Q_scope.

(* ================================================================== *)
(** ** JavaScript numbers and completions                              *)
(* ================================================================== *)

(** [Math.round(x)]: the integer nearest to [x], halves going up. *)
Definition Math_round (x : Q) : Z := Qfloor (x + (1#2)).

(** [Math.min(x, y)]. *)
Definition Math_min (x y : Q) : Q := if Qlt_le_dec y x then y else x.

(** [Math.min(x, y, z)]. *)
Definition Math_min3 (x y z : Q) : Q := Math_min (Math_min x y) z.

(** An unsigned pixel count ([canvas.width], [img.naturalWidth]) as a number. *)
Definition of_uint (n : N) : Q := inject_Z (Z.of_N n).

(** How a call ends. [Throw] carries the message of the [Error]; [NonFinite]
    marks a run that leaves the rational model (a division by zero, a
    canvas given a negative number of rows); [OutOfFuel] marks a loop that
    was still running when the fuel of the model ran out. *)
Inductive completion (A : Type) : Type :=
| Normal (a : A)
| Throw (msg : string)
| NonFinite
| OutOfFuel.

Arguments Normal {A} a.
Arguments Throw {A} msg.
Arguments NonFinite {A}.
Arguments OutOfFuel {A}.

Definition bind {A B : Type} (c : completion A) (k : A -> completion B)
  : completion B :=
  match c with
  | Normal a => k a
  | Throw msg => Throw msg
  | NonFinite => NonFinite
  | OutOfFuel => OutOfFuel
  end.

Notation "x <- c ;; k" := (bind c (fun x => k))
  (at level 61, c at next level, right associativity).

(** A run that has ended, by a return or by an error: it did not stop for
    want of fuel. *)
Definition settled {A : Type} (c : completion A) : Prop := c <> OutOfFuel.

(** [a / b] on JavaScript numbers, inside the rational model. *)
Definition js_div (a b : Q) : completion Q :=
  if Qeq_dec b 0 then NonFinite else Normal (a / b).

(* ================================================================== *)
(** ** The jsPDF document                                              *)
(* ================================================================== *)

(** The pixels handed to [doc.addImage]: the data URL of the uploaded file,
    or the PNG of a slice canvas filled by
    [ctx.drawImage(canvas, sx, sy, sw, sh, 0, 0, sw, sh)]. *)
Inductive image_data : Type :=
| FileDataURL
| CanvasSlice (sx sy : Q) (sw : N) (sh : Z).

(** The calls made on the document. *)
Inductive directive : Type :=
| AddPage
| AddImage (data : image_data) (format : string) (x y w h : Q)
| Text (line : string) (x y : Q).

(** What is drawn on one page, in drawing order. *)
Definition page := list directive.

(** The pages a sequence of calls produces on a fresh document: drawing
    goes to the current page, [AddPage] opens a new current page. *)
Fixpoint pages_of (ds : list directive) : list page :=
  match ds with
  | [] => [[]]
  | AddPage :: rest => [] :: pages_of rest
  | d :: rest =>
      match pages_of rest with
      | p :: ps => (d :: p) :: ps
      | [] => [[d]]
      end
  end.

(** The images among a sequence of calls, as (data, x, y, w, h). *)
Record slice : Type := mkSlice {
  slice_data : image_data;
  slice_x : Q;
  slice_y : Q;
  slice_w : Q;
  slice_h : Q
}.

Fixpoint slices_of (ds : list directive) : list slice :=
  match ds with
  | [] => []
  | AddImage data _ x y w h :: rest => mkSlice data x y w h :: slices_of rest
  | _ :: rest => slices_of rest
  end.

(** The text lines among a sequence of calls. *)
Fixpoint lines_of (ds : list directive) : list string :=
  match ds with
  | [] => []
  | Text line _ _ :: rest => line :: lines_of rest
  | _ :: rest => lines_of rest
  end.

Fixpoint Qsum (l : list Q) : Q :=
  match l with
  | [] => 0
  | x :: rest => x + Qsum rest
  end.

(** The source row at which a slice starts, and its number of rows. *)
Definition slice_srcY (s : slice) : Q :=
  match slice_data s with
  | CanvasSlice _ sy _ _ => sy
  | FileDataURL => 0
  end.

Definition slice_rows (s : slice) : Z :=
  match slice_data s with
  | CanvasSlice _ _ _ sh => sh
  | FileDataURL => 0%Z
  end.

(** The page size of [new jsPDF({ unit: 'pt', format: 'a4' })], in points
    (the values the comments of [htmlStringToPdf] record). *)
Definition a4_width : Q := 59528 # 100.
Definition a4_height : Q := 84189 # 100.

(* ================================================================== *)
(** ** Strings and file names                                          *)
(* ================================================================== *)

(** A [File], of which the code reads the name. *)
Record File : Type := mkFile {
  file_name : string
}.

(** [s.split(sep)] for a one-character separator: never empty. *)
Fixpoint split (sep : ascii) (s : string) : list string :=
  match s with
  | EmptyString => [EmptyString]
  | String c rest =>
      if Ascii.eqb c sep then EmptyString :: split sep rest
      else match split sep rest with
           | hd :: tl => String c hd :: tl
           | [] => [String c EmptyString]
           end
  end.

(** [a.pop()] as used on the result of [split]: the last element. *)
Definition pop (a : list string) : string := last a EmptyString.

(** Case mapping of one character; characters outside A-Z and a-z are
    kept (the file names of the model are ASCII). *)
Definition lower_char (c : ascii) : ascii :=
  let n := N_of_ascii c in
  if ((65 <=? n) && (n <=? 90))%N then ascii_of_N (n + 32) else c.

Definition upper_char (c : ascii) : ascii :=
  let n := N_of_ascii c in
  if ((97 <=? n) && (n <=? 122))%N then ascii_of_N (n - 32) else c.

Fixpoint map_string (f : ascii -> ascii) (s : string) : string :=
  match s with
  | EmptyString => EmptyString
  | String c rest => String (f c) (map_string f rest)
  end.

Definition toLowerCase (s : string) : string := map_string lower_char s.
Definition toUpperCase (s : string) : string := map_string upper_char s.

(** [s.replace(c, '')] for a one-character pattern: the first occurrence
    of [c] is removed. *)
Fixpoint remove_first (c : ascii) (s : string) : string :=
  match s with
  | EmptyString => EmptyString
  | String c' rest =>
      if Ascii.eqb c' c then rest else String c' (remove_first c rest)
  end.

(** [a.includes(x)] on an array of strings. *)
Definition includes (a : list string) (x : string) : bool :=
  existsb (String.eqb x) a.

(** Whether a name has a dot in it. *)
Fixpoint has_dot (s : string) : bool :=
  match s with
  | EmptyString => false
  | String c rest => Ascii.eqb c "." || has_dot rest
  end.

Definition ACCEPTED_EXTENSIONS : list string :=
  [".docx"; ".txt"; ".html"; ".png"; ".jpg"; ".jpeg"]%string.

Definition IMAGE_EXTENSIONS : list string :=
  [".png"; ".jpg"; ".jpeg"]%string.

(** Return the lowercase file extension (e.g. ".docx"). *)
Definition getExtension (file : File) : string :=
  String "." (toLowerCase (pop (split "." (file_name file)))).

(** Check whether a file is one of the supported types. *)
Definition isValidFile (file : File) : bool :=
  includes ACCEPTED_EXTENSIONS (getExtension file).

(* ================================================================== *)
(** ** [htmlStringToPdf]: a tall canvas cut into page-high slices      *)
(* ================================================================== *)

(** The canvas returned by [html2canvas]. *)
Record Canvas : Type := mkCanvas {
  canvas_width : N;
  canvas_height : N
}.

Module HtmlStringToPdf.

Definition margin : Q := 0.

(** A canvas without rows has no picture: its [toDataURL('image/png')] is
    the string ["data:,"], which [doc.addImage] cannot read as a PNG; the
    call throws an [Error] with this message. *)
Definition empty_image_message : string := "Incomplete or corrupt PNG file".

Section Paginator.
(** [doc.internal.pageSize.getWidth()] and [getHeight()]. *)
Variables pageWidth pageHeight : Q.
Variable canvas : Canvas.

Definition imgW : Q := pageWidth - margin * 2.

(** The usable page height of the layout: the page minus its margins. *)
Definition usablePageHeight : Q := pageHeight - margin * 2.

Section Loop.
Variable ratio : Q.

(** The slice one round of the loop cuts and places. *)
Definition slice_at (remaining srcY : Q) : slice :=
  let sliceH := Math_min remaining pageHeight in
  mkSlice
    (CanvasSlice 0 (srcY * ratio) (canvas_width canvas)
       (Math_round (sliceH * ratio)))
    margin margin imgW sliceH.

(** One round of the [while (remaining > 0)] loop that draws its slice:
    the calls it makes on the document. *)
Definition emit_slice (remaining srcY : Q) : list directive :=
  let sliceH := Math_min remaining pageHeight in
  let slicePx := Math_round (sliceH * ratio) in
  (if Qlt_le_dec 0 srcY then [AddPage] else [])
    ++ [AddImage
          (CanvasSlice 0 (srcY * ratio) (canvas_width canvas) slicePx)
          "PNG" margin margin imgW sliceH].

(** The loop, with [fuel] bounding the number of rounds.  A round whose
    slice canvas gets no rows ([slice.height = 0]) ends the call: its
    [doc.addImage] throws, and the document built so far is dropped with
    the frame of [htmlStringToPdf]. *)
Fixpoint slice_loop (fuel : nat) (remaining srcY : Q)
  : completion (list directive) :=
  if Qlt_le_dec 0 remaining then
    match fuel with
    | O => OutOfFuel
    | S fuel' =>
        let sliceH := Math_min remaining pageHeight in
        let slicePx := Math_round (sliceH * ratio) in
        match slicePx with
        | Z0 => Throw empty_image_message
        | Zneg _ => NonFinite
        | Zpos _ =>
            rest <- slice_loop fuel' (remaining - sliceH) (srcY + sliceH) ;;
            Normal (emit_slice remaining srcY ++ rest)
        end
    end
  else Normal [].
End Loop.

(** [canvas.width / imgW] and [canvas.height / ratio] as numbers. *)
Definition ratio_of : Q := of_uint (canvas_width canvas) / imgW.
Definition imgH_of : Q := of_uint (canvas_height canvas) / ratio_of.

(** The page-building part of [htmlStringToPdf], from the canvas on.
    When [ratio] is zero (a canvas without columns), [canvas.height / ratio]
    is NaN for a canvas without rows: [NaN > 0] is false, the loop is not
    entered and the blank document is returned.  For a canvas with rows
    the quotient is ±Infinity, which the model does not follow. *)
Definition paginate (fuel : nat) : completion (list directive) :=
  ratio <- js_div (of_uint (canvas_width canvas)) imgW ;;
  if Qeq_dec ratio 0 then
    if (canvas_height canvas =? 0)%N then Normal [] else NonFinite
  else slice_loop ratio fuel (of_uint (canvas_height canvas) / ratio) 0.

(** The height of a page in rows of the canvas. *)
Definition page_rows : Q := pageHeight * ratio_of.

(** The canvas fills [k] pages and ends on the next one, at least one row
    below its top and at least one row above its bottom: no rounding of
    the code's arithmetic moves the end of the canvas across a page end,
    and the last slice has a row to draw. *)
Definition clear_of_page_ends (k : nat) : bool :=
  Qle_bool (inject_Z (Z.of_nat k) * page_rows + 1)
    (of_uint (canvas_height canvas))
  && Qle_bool (of_uint (canvas_height canvas))
       (inject_Z (Z.of_nat (S k)) * page_rows - 1).
End Paginator.

Definition htmlStringToPdf (canvas : Canvas) (fuel : nat)
  : completion (list directive) :=
  paginate a4_width a4_height canvas fuel.

(** The call that draws a slice, and the calls that put one slice on
    each page, a new page being opened before every slice but the first. *)
Definition draw (s : slice) : directive :=
  AddImage (slice_data s) "PNG" (slice_x s) (slice_y s) (slice_w s)
    (slice_h s).

Definition with_page_breaks (sls : list slice) : list directive :=
  match sls with
  | [] => []
  | s :: rest => draw s :: flat_map (fun s' => [AddPage; draw s']) rest
  end.

End HtmlStringToPdf.


(* ================================================================== *)
(** ** [convertTxt]: wrapped lines laid out down the pages             *)
(* ================================================================== *)

Module ConvertTxt.

Definition margin : Q := 50.
Definition lineHeight : Q := 15.

(** The baseline of the first line of a page: [margin + 20]. *)
Definition firstBaseline : Q := margin + 20.

Section Paginator.
Variables pageWidth pageHeight : Q.
(** [doc.splitTextToSize(text, maxWidth)] of jsPDF, for the font the
    code sets (Helvetica, 11 pt). *)
Variable splitTextToSize : string -> Q -> list string.

Definition maxWidth : Q := pageWidth - margin * 2.

(** The [for] loop over [lines], from line [i] on, [y] being the
    baseline of the next line. *)
Fixpoint place_lines (lines : list string) (y : Q) : list directive :=
  match lines with
  | [] => []
  | line :: rest =>
      let break := Qlt_le_dec (pageHeight - margin) (y + lineHeight) in
      let y' := if break then firstBaseline else y in
      (if break then [AddPage] else [])
        ++ Text line margin y' :: place_lines rest (y' + lineHeight)
  end.

Definition paginate (text : string) : list directive :=
  place_lines (splitTextToSize text maxWidth) firstBaseline.
End Paginator.

Definition convertTxt (splitTextToSize : string -> Q -> list string)
  (text : string) : list directive :=
  paginate a4_width a4_height splitTextToSize text.

(** The baselines of the text calls of a page, in drawing order. *)
Fixpoint baselines (p : page) : list Q :=
  match p with
  | [] => []
  | Text _ _ y :: rest => y :: baselines rest
  | _ :: rest => baselines rest
  end.

(** [ys] starts at [y] and goes down the page in steps of [lineHeight]. *)
Fixpoint stepped_from (y : Q) (ys : list Q) : Prop :=
  match ys with
  | [] => True
  | y0 :: rest => y0 == y /\ stepped_from (y + lineHeight) rest
  end.

(** The test of the loop: a line at baseline [y] still fits the page. *)
Definition fits (pageHeight y : Q) : Prop :=
  y + lineHeight <= pageHeight - margin.

(** The number of lines of a page, as a number. *)
Definition line_count (p : page) : Q :=
  inject_Z (Z.of_nat (List.length (baselines p))).

(** Every page that is followed by another one is full: one more line
    below its lines would not fit.  [y] is the baseline at which the
    first of the pages starts, the later ones start at [firstBaseline]. *)
Fixpoint breaks_when_full (pageHeight y : Q) (pages : list page) : Prop :=
  match pages with
  | [] => True
  | p :: rest =>
      (rest <> [] -> ~ fits pageHeight (y + line_count p * lineHeight))
      /\ breaks_when_full pageHeight firstBaseline rest
  end.

End ConvertTxt.

(* ================================================================== *)
(** ** [convertImage]: one image scaled to fit one page                *)
(* ================================================================== *)

(** A decoded [Image]. *)
Record Image : Type := mkImage {
  naturalWidth : N;
  naturalHeight : N
}.

Module ConvertImage.

Definition margin : Q := 40.

Section Paginator.
Variables pageWidth pageHeight : Q.

Definition maxW : Q := pageWidth - margin * 2.
Definition maxH : Q := pageHeight - margin * 2.

(** The format name handed to [doc.addImage]. *)
Definition format_of (file : File) : string :=
  let ext := toUpperCase (remove_first "." (getExtension file)) in
  if String.eqb ext "JPG" then "JPEG"%string else ext.

(** The body of [img.onload]. *)
Definition onload (file : File) (img : Image)
  : completion (list directive) :=
  let imgW := of_uint (naturalWidth img) in
  let imgH := of_uint (naturalHeight img) in
  fitW <- js_div maxW imgW ;;
  fitH <- js_div maxH imgH ;;
  let scale := Math_min3 fitW fitH 1 in
  let imgW := imgW * scale in
  let imgH := imgH * scale in
  let x := margin + (maxW - imgW) / 2 in
  let y := margin + (maxH - imgH) / 2 in
  Normal [AddImage FileDataURL (format_of file) x y imgW imgH].

(** [img.onload] runs when the image decodes, [img.onerror] rejects
    when it does not. *)
Definition paginate (file : File) (decoded : option Image)
  : completion (list directive) :=
  match decoded with
  | Some img => onload file img
  | None => Throw "Could not load image."
  end.
End Paginator.

Definition convertImage (file : File) (decoded : option Image)
  : completion (list directive) :=
  paginate a4_width a4_height file decoded.

End ConvertImage.

(* ================================================================== *)
(** ** The download name, the dispatch and the file card               *)
(* ================================================================== *)

(** The character class [[^/.]] of the pattern in [showDownloadSection]. *)
Definition ext_char (c : ascii) : bool :=
  negb (Ascii.eqb c "/") && negb (Ascii.eqb c ".").

Fixpoint all_chars (p : ascii -> bool) (s : string) : bool :=
  match s with
  | EmptyString => true
  | String c rest => p c && all_chars p rest
  end.

(** Whether [/\.[^/.]+$/] matches [s] from its first character on: a dot,
    then one or more characters of the class, up to the end. *)
Definition matches_ext (s : string) : bool :=
  match s with
  | String c (String c' rest) =>
      Ascii.eqb c "." && all_chars ext_char (String c' rest)
  | _ => false
  end.

(** [name.replace(/\.[^/.]+$/, '')]: the leftmost match, which runs to the
    end of the name, is removed. *)
Fixpoint remove_ext (s : string) : string :=
  if matches_ext s then EmptyString
  else match s with
       | EmptyString => EmptyString
       | String c rest => String c (remove_ext rest)
       end.

(** The [data-filename] that [showDownloadSection] sets. *)
Definition download_name (file : File) : string :=
  (remove_ext (file_name file) ++ ".pdf")%string.

(** The converters [convertFile] chooses from: [convertDocx],
    [convertTxt], [convertHtml] and [convertImage]. *)
Inductive converter : Type :=
| DocxConverter
| TxtConverter
| HtmlConverter
| ImageConverter.

(** The [if ... else if ... else throw] of [convertFile]. *)
Definition dispatch (ext : string) : completion converter :=
  if String.eqb ext ".docx" then Normal DocxConverter
  else if String.eqb ext ".txt" then Normal TxtConverter
  else if String.eqb ext ".html" then Normal HtmlConverter
  else if includes IMAGE_EXTENSIONS ext then Normal ImageConverter
  else Throw "Unsupported file type.".

(** The label [handleFileSelected] puts on the file card. *)
Definition icon_label (ext : string) : string :=
  if String.eqb ext ".docx" then "DOCX"
  else if String.eqb ext ".txt" then "TXT"
  else if String.eqb ext ".html" then "HTML"
  else "IMG".

(** Whether [handleFileSelected] asks for a thumbnail of the file. *)
Definition has_thumbnail (ext : string) : bool :=
  includes IMAGE_EXTENSIONS ext.

(* ================================================================== *)
(** ** [convertTxt]: the progress it reports                           *)
(* ================================================================== *)

(** [P] holds of every element of a list but the last one. *)
Fixpoint all_but_last {A : Type} (P : A -> Prop) (l : list A) : Prop :=
  match l with
  | [] => True
  | x :: rest =>
      match rest with
      | [] => True
      | _ :: _ => P x /\ all_but_last P rest
      end
  end.

Module TxtProgress.

(** The value of [setProgress] in round [i] of the loop over [n] lines:
    [50 + Math.round((i / lines.length) * 40)]. *)
Definition loop_progress (n i : nat) : Z :=
  (50 + Math_round (inject_Z (Z.of_nat i) / inject_Z (Z.of_nat n) * 40))%Z.

(** The values [convertTxt] hands to [setProgress], in order: 20, 50, one
    value for each line, 95. *)
Definition convertTxt_progress (lines : list string) : list Z :=
  [20; 50]%Z
    ++ map (loop_progress (List.length lines)) (seq 0 (List.length lines))
    ++ [95]%Z.

(** The values of a text conversion that succeeds, from the click on:
    [convertFile] reports 5 before and 100 after [convertTxt]. *)
Definition convertFile_progress (lines : list string) : list Z :=
  [5]%Z ++ convertTxt_progress lines ++ [100]%Z.

End TxtProgress.

(* ================================================================== *)
(** ** [formatBytes]: the size on the file card                        *)
(* ================================================================== *)

(** A non-negative integer in decimal, as a template literal or
    [toFixed] prints it. *)
Definition digits (n : N) : string := NilEmpty.string_of_uint (N.to_uint n).

Definition digit_char (d : N) : ascii := ascii_of_N (48 + d).

(** The [f] digits after the point: [r] in decimal, with zeros in front. *)
Fixpoint fraction_digits (f : nat) (r : N) : string :=
  match f with
  | O => EmptyString
  | S f' =>
      (fraction_digits f' (r / 10)
         ++ String (digit_char (r mod 10)) EmptyString)%string
  end.

(** [x.toFixed(f)] for [x >= 0]: with [n] the integer nearest to
    [x * 10^f], the larger one of two, the digits of [n] with a point
    before the last [f] of them. *)
Definition toFixed (x : Q) (f : nat) : string :=
  let p := (10 ^ N.of_nat f)%N in
  let n := Z.to_N (Math_round (x * of_uint p)) in
  match f with
  | O => digits n
  | S _ => (digits (n / p) ++ "." ++ fraction_digits f (n mod p))%string
  end.

(** Format bytes into a human-readable string (KB / MB).  A byte count
    divided by a power of two is an exact JavaScript number, so the
    rational quotient is the number [toFixed] prints. *)
Definition formatBytes (bytes : N) : string :=
  if (bytes <? 1024)%N then (digits bytes ++ " B")%string
  else if (bytes <? 1024 * 1024)%N then
    (toFixed (of_uint bytes / 1024) 1 ++ " KB")%string
  else (toFixed (of_uint bytes / (1024 * 1024)) 2 ++ " MB")%string.

(* ================================================================== *)
(** ** The page: selection, conversion and download                    *)
(* ================================================================== *)

(** The state the handlers of [app.js] read and write: the two globals
    and the parts of the page they show, hide, enable and label.
    [pending] holds the files whose conversion has been started and is
    waiting for its converter: [convertFile] is asynchronous, so other
    handlers run between its start and its end.  Left out: the texts of
    the status banner and of the progress bar, the size on the file card
    and the thumbnail. *)
Module Page.

Inductive status_type : Type :=
| success
| error.

Section WithBlob.
(** The PDF a converter returns. *)
Variable Blob : Type.

Record App : Type := mkApp {
  selectedFile : option File;
  generatedPdfBlob : option Blob;
  fileTypeIcon : string;           (* fileTypeIcon.textContent *)
  filePreview_shown : bool;        (* filePreview.style.display *)
  convertBtn_disabled : bool;      (* convertBtn.disabled *)
  progress_shown : bool;           (* progressContainer.style.display *)
  download_shown : bool;           (* downloadSection.style.display *)
  status : option status_type;     (* the banner, when it is shown *)
  data_filename : option string;   (* downloadBtn's data-filename *)
  pending : list File
}.

(** The state [resetUI] restores, before any download was named. *)
Definition initial : App :=
  mkApp None None EmptyString false true false false None None [].

(** Called whenever a new file is selected (browse or drop). *)
Definition handleFileSelected (file : File) (st : App) : App :=
  if negb (isValidFile file) then
    mkApp (selectedFile st) (generatedPdfBlob st) (fileTypeIcon st)
      (filePreview_shown st) (convertBtn_disabled st) (progress_shown st)
      (download_shown st) (Some error) (data_filename st) (pending st)
  else
    mkApp (Some file) None (icon_label (getExtension file))
      true false (progress_shown st)
      false None (data_filename st) (pending st).

(** Reset the UI to the initial "choose a file" state. *)
Definition resetUI (st : App) : App :=
  mkApp None None (fileTypeIcon st) false true false false None
    (data_filename st) (pending st).

(** [convertFile] up to its first [await]: nothing without a selected
    file; otherwise the progress is shown and the converter is started on
    the selected file, or, for an extension without a converter, the error
    is caught and shown at once. *)
Definition convertFile_start (st : App) : App :=
  match selectedFile st with
  | None => st
  | Some file =>
      match dispatch (getExtension file) with
      | Normal _ =>
          mkApp (selectedFile st) (generatedPdfBlob st) (fileTypeIcon st)
            (filePreview_shown st) true true false None
            (data_filename st) (pending st ++ [file])
      | _ =>
          mkApp (selectedFile st) (generatedPdfBlob st) (fileTypeIcon st)
            (filePreview_shown st) false false false (Some error)
            (data_filename st) (pending st)
      end
  end.

(** [convertFile] after the [await]: the converter returned a PDF
    ([Some blob]) or failed ([None]).  [showDownloadSection] reads the
    name of the file that is selected now; without a selected file it
    throws, which [convertFile] catches like any failure. *)
Definition convertFile_finish (result : option Blob) (st : App) : App :=
  match result with
  | Some blob =>
      match selectedFile st with
      | Some file =>
          mkApp (selectedFile st) (Some blob) (fileTypeIcon st)
            (filePreview_shown st) false (progress_shown st) true
            (Some success) (Some (download_name file)) (pending st)
      | None =>
          mkApp (selectedFile st) (Some blob) (fileTypeIcon st)
            (filePreview_shown st) false false (download_shown st)
            (Some error) (data_filename st) (pending st)
      end
  | None =>
      mkApp (selectedFile st) (generatedPdfBlob st) (fileTypeIcon st)
        (filePreview_shown st) false false (download_shown st)
        (Some error) (data_filename st) (pending st)
  end.

(** The click on the download button: what is offered, under which
    name. *)
Definition download (st : App) : option (Blob * string) :=
  match generatedPdfBlob st with
  | None => None
  | Some blob =>
      Some (blob,
            match data_filename st with
            | Some name => if String.eqb name "" then "converted.pdf"%string
                           else name
            | None => "converted.pdf"%string
            end)
  end.

Fixpoint remove_nth {A : Type} (k : nat) (l : list A) : list A :=
  match l, k with
  | [], _ => []
  | _ :: rest, O => rest
  | x :: rest, S k' => x :: remove_nth k' rest
  end.

Definition with_pending (st : App) (files : list File) : App :=
  mkApp (selectedFile st) (generatedPdfBlob st) (fileTypeIcon st)
    (filePreview_shown st) (convertBtn_disabled st) (progress_shown st)
    (download_shown st) (status st) (data_filename st) files.

(** What happens on the page: a file is chosen or dropped, the file is
    removed (or "convert another" is clicked), the convert button is
    clicked (a disabled button gets no click), the [k]-th conversion
    under way ends. *)
Inductive event : Type :=
| Select (file : File)
| Remove
| ClickConvert
| Converted (k : nat) (result : option Blob).

Definition step (st : App) (ev : event) : App :=
  match ev with
  | Select file => handleFileSelected file st
  | Remove => resetUI st
  | ClickConvert =>
      if convertBtn_disabled st then st else convertFile_start st
  | Converted k result =>
      match nth_error (pending st) k with
      | Some _ =>
          convertFile_finish result
            (with_pending st (remove_nth k (pending st)))
      | None => st
      end
  end.

Definition run (st : App) (evs : list event) : App := fold_left step evs st.

End WithBlob.

Arguments selectedFile {Blob}.
Arguments generatedPdfBlob {Blob}.
Arguments fileTypeIcon {Blob}.
Arguments filePreview_shown {Blob}.
Arguments convertBtn_disabled {Blob}.
Arguments progress_shown {Blob}.
Arguments download_shown {Blob}.
Arguments status {Blob}.
Arguments data_filename {Blob}.
Arguments pending {Blob}.
Arguments initial {Blob}.
Arguments handleFileSelected {Blob}.
Arguments resetUI {Blob}.
Arguments convertFile_start {Blob}.
Arguments convertFile_finish {Blob}.
Arguments download {Blob}.
Arguments step {Blob}.
Arguments run {Blob}.
Arguments Select {Blob}.
Arguments Remove {Blob}.
Arguments ClickConvert {Blob}.
Arguments Converted {Blob}.

End Page.

(* ================================================================== *)
(** ** Facts on numbers                                                *)
(* ================================================================== *)

Lemma Math_min_le_l (x y : Q) : Math_min x y <= x.
Proof.
  unfold Math_min. destruct (Qlt_le_dec y x); lra.
Qed.


Lemma Math_min_pos (x y : Q) : 0 < x -> 0 < y -> 0 < Math_min x y.
Proof.
  intros Hx Hy. unfold Math_min. destruct (Qlt_le_dec y x); assumption.
Qed.

(** [Math.round] moves a number by at most one half. *)
Lemma Math_round_upper (x : Q) : inject_Z (Math_round x) <= x + (1#2).
Proof. unfold Math_round. apply Qfloor_le. Qed.

Lemma inject_nat_succ (n : nat) :
  inject_Z (Z.of_nat (S n)) == inject_Z (Z.of_nat n) + 1.
Proof.
  rewrite Nat2Z.inj_succ. unfold Z.succ. rewrite inject_Z_plus. reflexivity.
Qed.

Lemma inject_nat_nonneg (n : nat) : 0 <= inject_Z (Z.of_nat n).
Proof.
  change 0 with (inject_Z 0). rewrite <- Zle_Qle. apply Nat2Z.is_nonneg.
Qed.

Lemma of_uint_pos (n : N) : (0 < n)%N -> 0 < of_uint n.
Proof.
  intros H. unfold of_uint. change 0 with (inject_Z 0).
  rewrite <- Zlt_Qlt. lia.
Qed.

Lemma inject_Z_pred (z : Z) : inject_Z (z - 1) == inject_Z z - 1.
Proof.
  unfold Z.sub. rewrite inject_Z_plus, inject_Z_opp. reflexivity.
Qed.

(** The ceiling of [x] is the one integer [z] with [z - 1 < x <= z]. *)
Lemma Qceiling_unique (x : Q) (z : Z) :
  inject_Z z - 1 < x -> x <= inject_Z z -> Qceiling x = z.
Proof.
  intros Hlo Hhi.
  pose proof (Qle_ceiling x) as Hc1.
  pose proof (Qceiling_lt x) as Hc2.
  assert (H1 : inject_Z (z - 1) < inject_Z (Qceiling x)).
  { rewrite inject_Z_pred. lra. }
  assert (H2 : inject_Z (Qceiling x - 1) < inject_Z z) by lra.
  rewrite <- Zlt_Qlt in H1, H2. lia.
Qed.

(** [r / p] rounds up to [n] when [r] lies in the [n]-th interval of
    length [p]. *)
Lemma Qceiling_div_interval (r p : Q) (n : Z) :
  0 < p -> (inject_Z n - 1) * p < r -> r <= inject_Z n * p ->
  Qceiling (r / p) = n.
Proof.
  intros Hp Hlo Hhi. apply Qceiling_unique.
  - apply Qlt_shift_div_l; assumption.
  - apply Qle_shift_div_r; assumption.
Qed.

(* ================================================================== *)
(** ** The slicing loop                                                *)
(* ================================================================== *)

Module SliceLoop.
Import HtmlStringToPdf.

(** [Math.round] of a number from one half on is 1 or more; of a number
    from 0 to below one half it is 0. *)
Lemma Math_round_pos (x : Q) : 1#2 <= x -> (0 < Math_round x)%Z.
Proof.
  intros Hx. unfold Math_round.
  assert (H : (Qfloor 1 <= Qfloor (x + (1#2)))%Z)
    by (apply Qfloor_resp_le; lra).
  change (Qfloor 1) with 1%Z in H. lia.
Qed.

Lemma Math_round_zero (x : Q) : 0 <= x -> x < 1#2 -> Math_round x = 0%Z.
Proof.
  intros Hlo Hhi. unfold Math_round.
  assert (H0 : (Qfloor 0 <= Qfloor (x + (1#2)))%Z)
    by (apply Qfloor_resp_le; lra).
  change (Qfloor 0) with 0%Z in H0.
  pose proof (Qfloor_le (x + (1#2))) as Hfl.
  assert (H1 : inject_Z (Qfloor (x + (1#2))) < inject_Z 1).
  { change (inject_Z 1) with 1. lra. }
  rewrite <- Zlt_Qlt in H1. lia.
Qed.

Lemma Math_min_big (r p : Q) : p < r -> Math_min r p = p.
Proof.
  intros H. unfold Math_min. destruct (Qlt_le_dec p r); [reflexivity | lra].
Qed.

Lemma Math_min_small (r p : Q) : r <= p -> Math_min r p = r.
Proof.
  intros H. unfold Math_min. destruct (Qlt_le_dec p r); [lra | reflexivity].
Qed.

Lemma bind_settled {A B : Type} (c : completion A) (k : A -> completion B) :
  settled c -> (forall a, settled (k a)) -> settled (bind c k).
Proof.
  unfold settled. intros Hc Hk. destruct c; cbn [bind];
    [apply Hk | discriminate | discriminate | congruence].
Qed.

Section Facts.
Variables pageWidth pageHeight : Q.
Variable canvas : Canvas.
Variable ratio : Q.

Local Abbreviation loop := (slice_loop pageWidth pageHeight canvas ratio).
Local Abbreviation emit := (emit_slice pageWidth pageHeight canvas ratio).
Local Abbreviation sliceH r := (Math_min r pageHeight).
Local Abbreviation slicePx r := (Math_round (Math_min r pageHeight * ratio)).
Local Abbreviation slice_at := (slice_at pageWidth pageHeight canvas ratio).

Lemma loop_done (fuel : nat) (r s : Q) : r <= 0 -> loop fuel r s = Normal [].
Proof.
  intros Hr. destruct fuel; simpl; destruct (Qlt_le_dec 0 r); try lra;
    reflexivity.
Qed.

Lemma loop_stuck (r s : Q) : 0 < r -> loop 0 r s = OutOfFuel.
Proof.
  intros Hr. simpl. destruct (Qlt_le_dec 0 r); [reflexivity | lra].
Qed.

(** One round of the loop, by the number of rows of its slice. *)
Lemma loop_step (fuel : nat) (r s : Q) :
  0 < r ->
  loop (S fuel) r s =
  match slicePx r with
  | Z0 => Throw empty_image_message
  | Zneg _ => NonFinite
  | Zpos _ =>
      rest <- loop fuel (r - sliceH r) (s + sliceH r) ;;
      Normal (emit r s ++ rest)
  end.
Proof.
  intros Hr. cbn [slice_loop]. destruct (Qlt_le_dec 0 r); [reflexivity | lra].
Qed.

(** A round whose slice has a row draws it and goes on. *)
Lemma loop_round (fuel : nat) (r s : Q) :
  0 < r -> (0 < slicePx r)%Z ->
  loop (S fuel) r s =
  (rest <- loop fuel (r - sliceH r) (s + sliceH r) ;;
   Normal (emit r s ++ rest)).
Proof.
  intros Hr Hpx. rewrite loop_step by assumption.
  destruct (slicePx r); [lia | reflexivity | lia].
Qed.

(** A round whose slice has no row ends the call in an error. *)
Lemma loop_round_empty (fuel : nat) (r s : Q) :
  0 < r -> slicePx r = 0%Z ->
  loop (S fuel) r s = Throw empty_image_message.
Proof.
  intros Hr Hpx. rewrite loop_step by assumption. rewrite Hpx. reflexivity.
Qed.

(** What a returning run of at least one round went through. *)
Lemma loop_round_inv (fuel : nat) (r s : Q) (ds : list directive) :
  0 < r ->
  loop (S fuel) r s = Normal ds ->
  (0 < slicePx r)%Z /\
  exists rest,
    loop fuel (r - sliceH r) (s + sliceH r) = Normal rest /\
    ds = emit r s ++ rest.
Proof.
  intros Hr Hrun. rewrite loop_step in Hrun by assumption.
  destruct (slicePx r) as [| px | px]; try discriminate.
  split; [lia |].
  destruct (loop fuel (r - sliceH r) (s + sliceH r)) as [rest | | |];
    try discriminate.
  cbn [bind] in Hrun. injection Hrun as <-. exists rest.
  split; reflexivity.
Qed.

(** Induction over the rounds of a loop that has returned. *)
Lemma loop_ind (P : Q -> Q -> list directive -> Prop) :
  (forall r s, r <= 0 -> P r s []) ->
  (forall r s ds, 0 < r -> (0 < slicePx r)%Z ->
     P (r - sliceH r) (s + sliceH r) ds -> P r s (emit r s ++ ds)) ->
  forall fuel r s ds, loop fuel r s = Normal ds -> P r s ds.
Proof.
  intros Hdone Hround. induction fuel as [| fuel IH]; intros r s ds Hrun.
  - destruct (Qlt_le_dec 0 r) as [Hr | Hr].
    + rewrite loop_stuck in Hrun by assumption. discriminate.
    + rewrite loop_done in Hrun by assumption.
      injection Hrun as <-. apply Hdone. assumption.
  - destruct (Qlt_le_dec 0 r) as [Hr | Hr].
    + destruct (loop_round_inv _ _ _ _ Hr Hrun) as [Hpx [rest [Hrest ->]]].
      apply Hround; [assumption | assumption |].
      apply IH. assumption.
    + rewrite loop_done in Hrun by assumption.
      injection Hrun as <-. apply Hdone. assumption.
Qed.

(** More fuel does not change how a run has ended. *)
Lemma loop_fuel_mono (fuel : nat) :
  forall r s c, loop fuel r s = c -> settled c ->
  forall fuel', (fuel <= fuel')%nat -> loop fuel' r s = c.
Proof.
  induction fuel as [| fuel IH]; intros r s c Hrun Hc fuel' Hle.
  - destruct (Qlt_le_dec 0 r) as [Hr | Hr].
    + rewrite loop_stuck in Hrun by assumption. subst c.
      exfalso. apply Hc. reflexivity.
    + rewrite loop_done in Hrun |- * by assumption. assumption.
  - destruct (Qlt_le_dec 0 r) as [Hr | Hr].
    + destruct fuel' as [| fuel']; [lia |].
      rewrite loop_step in Hrun |- * by assumption.
      destruct (slicePx r); [assumption | | assumption].
      destruct (loop fuel (r - sliceH r) (s + sliceH r)) as [rest | msg | |]
        eqn:E.
      * rewrite (IH _ _ _ E) by (unfold settled; discriminate || lia).
        assumption.
      * rewrite (IH _ _ _ E) by (unfold settled; discriminate || lia).
        assumption.
      * rewrite (IH _ _ _ E) by (unfold settled; discriminate || lia).
        assumption.
      * cbn [bind] in Hrun. subst c. exfalso. apply Hc. reflexivity.
    + rewrite loop_done in Hrun |- * by assumption. assumption.
Qed.

(** Two runs of the loop from the same state that have ended, ended the
    same way. *)
Lemma loop_fuel_independent (f1 f2 : nat) (r s : Q)
  (c1 c2 : completion (list directive)) :
  loop f1 r s = c1 -> settled c1 -> loop f2 r s = c2 -> settled c2 ->
  c1 = c2.
Proof.
  intros H1 S1 H2 S2.
  apply loop_fuel_mono with (fuel' := Nat.max f1 f2) in H1;
    [| assumption | lia].
  apply loop_fuel_mono with (fuel' := Nat.max f1 f2) in H2;
    [| assumption | lia].
  congruence.
Qed.

Lemma slices_of_emit (r s : Q) (ds : list directive) :
  slices_of (emit r s ++ ds) = slice_at r s :: slices_of ds.
Proof.
  unfold emit_slice. destruct (Qlt_le_dec 0 s); reflexivity.
Qed.

(** The number [n] of slices of a loop that has returned: [remaining]
    lies in the [n]-th interval of length [pageHeight]. *)
Lemma loop_count (fuel : nat) (r s : Q) (ds : list directive) :
  loop fuel r s = Normal ds ->
  let n := inject_Z (Z.of_nat (List.length (slices_of ds))) in
  (r <= 0 /\ slices_of ds = []) \/
  (0 < r /\ (n - 1) * pageHeight < r /\ r <= n * pageHeight).
Proof.
  revert fuel r s ds. apply loop_ind.
  - intros r s Hr. left. split; [assumption | reflexivity].
  - intros r s ds Hr _ IH. right. split; [assumption |].
    rewrite slices_of_emit. cbn [List.length].
    rewrite inject_nat_succ.
    unfold Math_min in IH.
    destruct (Qlt_le_dec pageHeight r) as [Hbig | Hsmall].
    + destruct IH as [[Hle _] | [_ [Hlo Hhi]]]; [lra |].
      cbv zeta in Hlo, Hhi. split; nra.
    + destruct IH as [[_ Hnil] | [Hpos _]]; [| lra].
      rewrite Hnil. cbn [List.length Z.of_nat].
      change (inject_Z 0) with 0. split; nra.
Qed.

(** The slice heights of a loop that has returned add up to
    [remaining]. *)
Lemma loop_sum (fuel : nat) (r s : Q) (ds : list directive) :
  loop fuel r s = Normal ds ->
  (r <= 0 -> Qsum (map slice_h (slices_of ds)) == 0) /\
  (0 < r -> Qsum (map slice_h (slices_of ds)) == r).
Proof.
  revert fuel r s ds. apply loop_ind.
  - intros r s Hr. split; intros; [reflexivity | lra].
  - intros r s ds Hr _ [IH0 IH1]. split; [lra |]. intros _.
    rewrite slices_of_emit. cbn [map Qsum slice_at slice_h].
    unfold Math_min in *. destruct (Qlt_le_dec pageHeight r) as [Hbig | Hsmall].
    + rewrite IH1 by lra. lra.
    + rewrite IH0 by lra. lra.
Qed.

(** A loop that has returned from a positive height has drawn a slice,
    and every slice it has drawn has a row. *)
Lemma loop_draws (fuel : nat) (r s : Q) (ds : list directive) :
  loop fuel r s = Normal ds ->
  (0 < r -> slices_of ds <> []) /\
  Forall (fun sl => (0 < slice_rows sl)%Z) (slices_of ds).
Proof.
  revert fuel r s ds.
  apply (loop_ind (fun r _ ds =>
           (0 < r -> slices_of ds <> []) /\
           Forall (fun sl => (0 < slice_rows sl)%Z) (slices_of ds))).
  - intros r s Hr. split; [lra | constructor].
  - intros r s ds Hr Hpx [_ IH]. rewrite slices_of_emit. split.
    + discriminate.
    + constructor; [exact Hpx | exact IH].
Qed.

Section PositivePage.
Hypothesis page_pos : 0 < pageHeight.

(** The loop ends within [n] rounds when [remaining <= n * pageHeight]. *)
Lemma loop_terminates (n : nat) :
  forall r s, r <= inject_Z (Z.of_nat n) * pageHeight ->
  forall fuel, (n <= fuel)%nat -> settled (loop fuel r s).
Proof.
  induction n as [| n IH]; intros r s Hr fuel Hfuel.
  - rewrite loop_done; [discriminate |].
    change (inject_Z (Z.of_nat 0)) with 0 in Hr. lra.
  - destruct (Qlt_le_dec 0 r) as [Hpos | Hneg].
    + destruct fuel as [| fuel]; [lia |].
      rewrite loop_step by assumption.
      destruct (slicePx r); [discriminate | | discriminate].
      apply bind_settled; [| discriminate].
      apply IH; [| lia].
      rewrite inject_nat_succ in Hr.
      unfold Math_min. destruct (Qlt_le_dec pageHeight r).
      * lra.
      * pose proof (inject_nat_nonneg n) as Hn.
        assert (0 <= inject_Z (Z.of_nat n) * pageHeight)
          by (apply Qmult_le_0_compat; lra).
        lra.
    + rewrite loop_done by assumption. discriminate.
Qed.

(** No slice of zero or negative height is drawn. *)
Lemma loop_heights_pos (fuel : nat) (r s : Q) (ds : list directive) :
  loop fuel r s = Normal ds ->
  Forall (fun sl => 0 < slice_h sl) (slices_of ds).
Proof.
  revert fuel r s ds.
  apply (loop_ind (fun _ _ ds =>
                     Forall (fun sl => 0 < slice_h sl) (slices_of ds))).
  - intros. constructor.
  - intros r s ds Hr _ IH. rewrite slices_of_emit. constructor.
    + cbn [HtmlStringToPdf.slice_at slice_h].
      apply Math_min_pos; assumption.
    + assumption.
Qed.

(** Once a slice has been drawn, every later round opens a page
    before it draws. *)
Lemma loop_breaks_later (fuel : nat) (r s : Q) (ds : list directive) :
  loop fuel r s = Normal ds ->
  0 < s -> ds = flat_map (fun sl => [AddPage; draw sl]) (slices_of ds).
Proof.
  revert fuel r s ds.
  apply (loop_ind (fun _ s ds =>
           0 < s ->
           ds = flat_map (fun sl => [AddPage; draw sl]) (slices_of ds))).
  - reflexivity.
  - intros r s ds Hr _ IH Hs. rewrite slices_of_emit.
    cbn [flat_map app]. rewrite <- IH.
    + unfold emit_slice. destruct (Qlt_le_dec 0 s); [reflexivity | lra].
    + pose proof (Math_min_pos r pageHeight Hr page_pos). lra.
Qed.

(** From [srcY = 0] the calls are the slices, one per page. *)
Lemma loop_breaks (fuel : nat) (r : Q) (ds : list directive) :
  loop fuel r 0 = Normal ds -> ds = with_page_breaks (slices_of ds).
Proof.
  intros Hrun. destruct (Qlt_le_dec 0 r) as [Hr | Hr].
  - destruct fuel as [| fuel].
    + rewrite loop_stuck in Hrun by assumption. discriminate.
    + destruct (loop_round_inv _ _ _ _ Hr Hrun) as [_ [rest [E ->]]].
      rewrite slices_of_emit. unfold emit_slice.
      destruct (Qlt_le_dec 0 0) as [H0 | _]; [lra |].
      cbn [app with_page_breaks]. unfold draw at 1.
      cbn [slice_data slice_x slice_y slice_w slice_h
           HtmlStringToPdf.slice_at].
      f_equal. apply (loop_breaks_later _ _ _ _ E).
      pose proof (Math_min_pos r pageHeight Hr page_pos). lra.
  - rewrite loop_done in Hrun by assumption. injection Hrun as <-.
    reflexivity.
Qed.

Section PositiveRatio.
Hypothesis ratio_pos : 0 < ratio.

(** The source offsets of the slices go up strictly. *)
Lemma loop_srcY_sorted (fuel : nat) (r s : Q) (ds : list directive) :
  loop fuel r s = Normal ds ->
  (forall lo, lo <= s * ratio ->
     Forall (fun sl => lo <= slice_srcY sl) (slices_of ds)) /\
  StronglySorted (fun a b => slice_srcY a < slice_srcY b)
    (slices_of ds).
Proof.
  revert fuel r s ds.
  apply (loop_ind (fun _ s ds =>
           (forall lo, lo <= s * ratio ->
              Forall (fun sl => lo <= slice_srcY sl) (slices_of ds)) /\
           StronglySorted (fun a b => slice_srcY a < slice_srcY b)
             (slices_of ds))).
  - intros. split; intros; constructor.
  - intros r s ds Hr _ [IHlo IHsorted].
    pose proof (Math_min_pos r pageHeight Hr page_pos) as Hpos.
    assert (Hnext : s * ratio < (s + sliceH r) * ratio) by nra.
    rewrite slices_of_emit. split.
    + intros lo Hlo. constructor.
      * cbn. assumption.
      * apply IHlo. lra.
    + constructor; [assumption |].
      eapply Forall_impl; [| apply (IHlo ((s + sliceH r) * ratio)); lra].
      intros sl Hsl. cbv beta in Hsl.
      change (slice_srcY (slice_at r s)) with (s * ratio). nra.
Qed.

End PositiveRatio.
End PositivePage.

Section Rows.
Hypothesis ratio_pos : 0 < ratio.

(** A height in rows that is less than the height of a page in rows is a
    height that is less than a page. *)
Lemma below_page (r : Q) : r * ratio < pageHeight * ratio -> r < pageHeight.
Proof.
  intros H. destruct (Qlt_le_dec r pageHeight) as [Hlt | Hge];
    [assumption |].
  assert (pageHeight * ratio <= r * ratio)
    by (apply Qmult_le_compat_r; lra).
  lra.
Qed.

Lemma above_page (r : Q) : pageHeight * ratio < r * ratio -> pageHeight < r.
Proof.
  intros H. destruct (Qlt_le_dec pageHeight r) as [Hlt | Hge];
    [assumption |].
  assert (r * ratio <= pageHeight * ratio)
    by (apply Qmult_le_compat_r; lra).
  lra.
Qed.

(** A remaining height that fills [k] pages and ends on the next one, a
    row or more from its top and from its bottom: the loop returns after
    [k + 1] rounds, having drawn [k + 1] slices. *)
Lemma loop_clear (k : nat) :
  forall r s,
  inject_Z (Z.of_nat k) * (pageHeight * ratio) + 1 <= r * ratio ->
  r * ratio <= inject_Z (Z.of_nat (S k)) * (pageHeight * ratio) - 1 ->
  exists ds,
    loop (S k) r s = Normal ds /\ List.length (slices_of ds) = S k.
Proof.
  induction k as [| k IH]; intros r s Hlo Hhi.
  - change (inject_Z (Z.of_nat 0)) with 0 in Hlo.
    change (inject_Z (Z.of_nat 1)) with 1 in Hhi.
    assert (Hr : 0 < r).
    { destruct (Qlt_le_dec 0 r) as [Hr | Hr]; [assumption |].
      assert (r * ratio <= 0 * ratio)
        by (apply Qmult_le_compat_r; lra).
      lra. }
    assert (Hsmall : r < pageHeight) by (apply below_page; lra).
    assert (Hmin : Math_min r pageHeight = r)
      by (apply Math_min_small; lra).
    rewrite loop_round; [| assumption |].
    + rewrite Hmin. rewrite loop_done by lra. cbn [bind].
      eexists. split; [reflexivity |].
      rewrite app_nil_r. unfold emit_slice.
      destruct (Qlt_le_dec 0 s); reflexivity.
    + rewrite Hmin. apply Math_round_pos. lra.
  - pose proof (inject_nat_nonneg k) as Hk.
    rewrite (inject_nat_succ k) in Hlo.
    rewrite (inject_nat_succ (S k)), (inject_nat_succ k) in Hhi.
    set (P := pageHeight * ratio) in *.
    set (a := inject_Z (Z.of_nat k)) in *.
    assert (Ea : (a + 1) * P == a * P + P) by ring.
    assert (Eb : (a + 1 + 1) * P == a * P + P + P) by ring.
    rewrite Ea in Hlo. rewrite Eb in Hhi.
    assert (HP : 2 <= P) by lra.
    assert (HaP : 0 <= a * P) by (apply Qmult_le_0_compat; lra).
    assert (Hbig : pageHeight < r) by (apply above_page; fold P; lra).
    assert (Hr : 0 < r).
    { destruct (Qlt_le_dec 0 r) as [Hr | Hr]; [assumption |].
      assert (r * ratio <= 0 * ratio)
        by (apply Qmult_le_compat_r; lra).
      lra. }
    assert (Hmin : Math_min r pageHeight = pageHeight)
      by (apply Math_min_big; assumption).
    rewrite loop_round; [| assumption |].
    + rewrite Hmin.
      destruct (IH (r - pageHeight) (s + pageHeight)) as [ds [Hds Hlen]].
      * assert (E : (r - pageHeight) * ratio == r * ratio - P)
          by (unfold P; ring).
        rewrite E. lra.
      * rewrite (inject_nat_succ k). fold a.
        assert (E : (r - pageHeight) * ratio == r * ratio - P)
          by (unfold P; ring).
        rewrite E, Ea. lra.
      * rewrite Hds. cbn [bind]. eexists. split; [reflexivity |].
        rewrite slices_of_emit. cbn [List.length]. rewrite Hlen.
        reflexivity.
    + rewrite Hmin. fold P. apply Math_round_pos. lra.
Qed.

(** A remaining height that fills [k] pages and ends less than half a row
    into the next one: round [k + 1] gives its slice no row, and the call
    ends in the error of [doc.addImage]. *)
Lemma loop_sliver (k : nat) :
  1#2 <= pageHeight * ratio ->
  forall r s,
  inject_Z (Z.of_nat k) * (pageHeight * ratio) < r * ratio ->
  r * ratio < inject_Z (Z.of_nat k) * (pageHeight * ratio) + (1#2) ->
  loop (S k) r s = Throw empty_image_message.
Proof.
  intros HP. induction k as [| k IH]; intros r s Hlo Hhi.
  - change (inject_Z (Z.of_nat 0)) with 0 in Hlo, Hhi.
    assert (Hr : 0 < r).
    { destruct (Qlt_le_dec 0 r) as [Hr | Hr]; [assumption |].
      assert (r * ratio <= 0 * ratio)
        by (apply Qmult_le_compat_r; lra).
      lra. }
    assert (Hsmall : r < pageHeight) by (apply below_page; lra).
    apply loop_round_empty; [assumption |].
    rewrite Math_min_small by lra.
    apply Math_round_zero; lra.
  - pose proof (inject_nat_nonneg k) as Hk.
    rewrite (inject_nat_succ k) in Hlo, Hhi.
    set (P := pageHeight * ratio) in *.
    set (a := inject_Z (Z.of_nat k)) in *.
    assert (Ea : (a + 1) * P == a * P + P) by ring.
    rewrite Ea in Hlo, Hhi.
    assert (HaP : 0 <= a * P) by (apply Qmult_le_0_compat; lra).
    assert (Hbig : pageHeight < r) by (apply above_page; fold P; lra).
    assert (Hr : 0 < r).
    { destruct (Qlt_le_dec 0 r) as [Hr | Hr]; [assumption |].
      assert (r * ratio <= 0 * ratio)
        by (apply Qmult_le_compat_r; lra).
      lra. }
    assert (Hmin : Math_min r pageHeight = pageHeight)
      by (apply Math_min_big; assumption).
    assert (E : (r - pageHeight) * ratio == r * ratio - P)
      by (unfold P; ring).
    rewrite loop_round; [| assumption |].
    + rewrite Hmin. rewrite IH; [reflexivity | |]; fold P a; rewrite E; lra.
    + rewrite Hmin. fold P. apply Math_round_pos. assumption.
Qed.
End Rows.

(** The rows a slice is asked to read end at most half a row below
    [(srcY + remaining) * ratio]. *)
Lemma loop_rows_bound (fuel : nat) (r s : Q) (ds : list directive) :
  0 <= ratio ->
  loop fuel r s = Normal ds ->
  forall bound, (s + r) * ratio <= bound ->
  Forall (fun sl =>
            slice_srcY sl + inject_Z (slice_rows sl) <= bound + (1#2))
    (slices_of ds).
Proof.
  intros Hratio. revert fuel r s ds.
  apply (loop_ind (fun r s ds =>
           forall bound, (s + r) * ratio <= bound ->
           Forall (fun sl =>
                     slice_srcY sl + inject_Z (slice_rows sl)
                     <= bound + (1#2))
             (slices_of ds))).
  - intros. constructor.
  - intros r s ds Hr _ IH bound Hbound. rewrite slices_of_emit. constructor.
    + cbn [slice_srcY slice_rows HtmlStringToPdf.slice_at slice_data].
      pose proof (Math_round_upper (sliceH r * ratio)) as Hround.
      pose proof (Math_min_le_l r pageHeight) as Hmin.
      assert (sliceH r * ratio <= r * ratio)
        by (apply Qmult_le_compat_r; assumption).
      nra.
    + apply IH. nra.
Qed.
End Facts.

Section Slices.
Variables pageWidth pageHeight : Q.
Variable canvas : Canvas.
Variable ratio : Q.
Hypothesis page_pos : 0 < pageHeight.

Local Abbreviation loop := (slice_loop pageWidth pageHeight canvas ratio).

(** The loop ends, by a return or by an error, whatever the image
    height. *)
Lemma loop_ends (r s : Q) : exists fuel, settled (loop fuel r s).
Proof.
  destruct (Qlt_le_dec 0 r) as [Hr | Hr].
  - set (c := Qceiling (r / pageHeight)).
    assert (Hc : r / pageHeight <= inject_Z c) by apply Qle_ceiling.
    assert (Hdiv : 0 < r / pageHeight).
    { apply Qlt_shift_div_l; [assumption | lra]. }
    assert (Hc0 : (0 < c)%Z).
    { rewrite Zlt_Qlt. change (inject_Z 0) with 0. lra. }
    assert (Hle : r <= inject_Z (Z.of_nat (Z.to_nat c)) * pageHeight).
    { rewrite Z2Nat.id by lia.
      assert (E : r == r / pageHeight * pageHeight) by (field; lra).
      rewrite E at 1. apply Qmult_le_compat_r; lra. }
    exists (Z.to_nat c).
    apply (loop_terminates pageWidth pageHeight canvas ratio page_pos
             (Z.to_nat c) r s Hle (Z.to_nat c) (le_n _)).
  - exists O. rewrite loop_done by assumption. discriminate.
Qed.

(** The slices of a positive height [H], when the loop has returned:
    their number is [ceil (H / pageHeight)] and their heights add up to
    [H]. *)
Lemma loop_slices (fuel : nat) (H s : Q) (ds : list directive) :
  0 < H ->
  loop fuel H s = Normal ds ->
  Z.of_nat (List.length (slices_of ds)) = Qceiling (H / pageHeight) /\
  Qsum (map slice_h (slices_of ds)) == H.
Proof.
  intros HH Hrun. split.
  - destruct (loop_count _ _ _ _ _ _ _ _ Hrun)
      as [[Hle _] | [_ [Hlo Hhi]]]; [lra |].
    symmetry. apply Qceiling_div_interval; assumption.
  - apply (loop_sum _ _ _ _ _ _ _ _ Hrun). assumption.
Qed.
End Slices.

(** One slice per page: page [i] of the document holds slice [i]. *)
Lemma pages_of_breaks_later (sls : list slice) :
  pages_of (flat_map (fun sl => [AddPage; draw sl]) sls) =
  [] :: map (fun sl => [draw sl]) sls.
Proof.
  induction sls as [| sl sls IH]; [reflexivity |].
  cbn [flat_map app map]. cbn [pages_of draw]. fold (draw sl).
  rewrite IH. reflexivity.
Qed.

Lemma pages_of_with_page_breaks (sl : slice) (sls : list slice) :
  pages_of (with_page_breaks (sl :: sls)) =
  map (fun sl => [draw sl]) (sl :: sls).
Proof.
  cbn [with_page_breaks map]. cbn [pages_of draw]. fold (draw sl).
  rewrite pages_of_breaks_later. reflexivity.
Qed.

Section Run.
Variables pageWidth pageHeight : Q.
Variable canvas : Canvas.
Hypothesis width_pos : 0 < pageWidth.
Hypothesis canvas_wide : (0 < canvas_width canvas)%N.

Lemma imgW_pos : 0 < imgW pageWidth.
Proof. unfold imgW, margin. lra. Qed.

Lemma ratio_pos : 0 < ratio_of pageWidth canvas.
Proof.
  unfold ratio_of. apply Qlt_shift_div_l; [apply imgW_pos |].
  pose proof (of_uint_pos _ canvas_wide). lra.
Qed.

(** [imgH * ratio] is the height of the canvas. *)
Lemma imgH_ratio :
  imgH_of pageWidth canvas * ratio_of pageWidth canvas ==
  of_uint (canvas_height canvas).
Proof.
  unfold imgH_of. pose proof ratio_pos as Hr. field. lra.
Qed.

(** With a positive page width and a canvas of positive width, both
    quotients are finite and [paginate] is the loop. *)
Lemma paginate_loop (fuel : nat) :
  paginate pageWidth pageHeight canvas fuel =
  slice_loop pageWidth pageHeight canvas (ratio_of pageWidth canvas)
    fuel (imgH_of pageWidth canvas) 0.
Proof.
  unfold paginate, js_div.
  destruct (Qeq_dec (imgW pageWidth) 0) as [E | _].
  { pose proof imgW_pos. lra. }
  cbn [bind]. fold (ratio_of pageWidth canvas).
  destruct (Qeq_dec (ratio_of pageWidth canvas) 0) as [E | _].
  { pose proof ratio_pos. lra. }
  reflexivity.
Qed.

(** Two runs of [paginate] that have ended, ended the same way. *)
Lemma paginate_fuel_independent (f1 f2 : nat)
  (c1 c2 : completion (list directive)) :
  paginate pageWidth pageHeight canvas f1 = c1 -> settled c1 ->
  paginate pageWidth pageHeight canvas f2 = c2 -> settled c2 ->
  c1 = c2.
Proof.
  rewrite !paginate_loop. apply loop_fuel_independent.
Qed.

(** On a page of positive height [paginate] ends, by a return or by an
    error. *)
Lemma paginate_ends :
  0 < pageHeight ->
  exists fuel, settled (paginate pageWidth pageHeight canvas fuel).
Proof.
  intros Hp.
  destruct (loop_ends pageWidth pageHeight canvas
              (ratio_of pageWidth canvas) Hp (imgH_of pageWidth canvas) 0)
    as [fuel Hfuel].
  exists fuel. rewrite paginate_loop. exact Hfuel.
Qed.

Lemma imgH_pos : (0 < canvas_height canvas)%N -> 0 < imgH_of pageWidth canvas.
Proof.
  intros Hh. unfold imgH_of. pose proof ratio_pos.
  apply Qlt_shift_div_l; [assumption |].
  pose proof (of_uint_pos _ Hh). lra.
Qed.

(** What [clear_of_page_ends] says, in rows of the canvas. *)
Lemma clear_of_page_ends_rows (k : nat) :
  clear_of_page_ends pageWidth pageHeight canvas k = true ->
  let P := pageHeight * ratio_of pageWidth canvas in
  let rows := imgH_of pageWidth canvas * ratio_of pageWidth canvas in
  inject_Z (Z.of_nat k) * P + 1 <= rows /\
  rows <= inject_Z (Z.of_nat (S k)) * P - 1.
Proof.
  unfold clear_of_page_ends, page_rows. intros H.
  apply andb_true_iff in H. destruct H as [Hlo Hhi].
  apply Qle_bool_iff in Hlo, Hhi.
  cbv zeta. rewrite imgH_ratio. split; assumption.
Qed.

(** A canvas that is clear of the page ends: [paginate] returns after
    [k + 1] rounds, with [k + 1] slices. *)
Lemma paginate_clear (k : nat) :
  clear_of_page_ends pageWidth pageHeight canvas k = true ->
  exists ds,
    paginate pageWidth pageHeight canvas (S k) = Normal ds /\
    List.length (slices_of ds) = S k.
Proof.
  intros Hclear.
  destruct (clear_of_page_ends_rows k Hclear) as [Hlo Hhi].
  rewrite paginate_loop.
  apply loop_clear; [apply ratio_pos | assumption | assumption].
Qed.
End Run.

Lemma usablePageHeight_eq (pageHeight : Q) :
  usablePageHeight pageHeight == pageHeight.
Proof. unfold usablePageHeight, margin. lra. Qed.
End SliceLoop.

(* ================================================================== *)
(** ** The image paginator: slices of a tall canvas                    *)
(* ================================================================== *)

Section ImagePaginator.
Import HtmlStringToPdf SliceLoop.

(** C1 does not hold of the code: a canvas whose last slice is less than
    half a row tall is not cut into [ceil (H / usablePageHeight)] slices.
    On the 1191 x 3369 canvas [H] is about 1683.88 points, two A4 pages
    and a tenth of a point, so that three slices are due; the third round
    of the loop gives its slice canvas [Math.round] of about 0.2, that is
    no row, [doc.addImage] throws on it, and [htmlStringToPdf] ends in
    that error whatever the fuel: no slice reaches a PDF. *)
Theorem sliver_canvas_is_not_paginated :
  let canvas := mkCanvas 1191 3369 in
  let ratio := ratio_of a4_width canvas in
  let H := imgH_of a4_width canvas in
  0 < H /\
  0 < usablePageHeight a4_height /\
  Qceiling (H / usablePageHeight a4_height) = 3%Z /\
  0 < H - 2 * a4_height /\
  Math_round (Math_min (H - 2 * a4_height) a4_height * ratio) = 0%Z /\
  htmlStringToPdf canvas 3 = Throw empty_image_message /\
  (forall fuel ds, htmlStringToPdf canvas fuel <> Normal ds).
Proof.
  cbv zeta.
  split; [reflexivity |]. split; [reflexivity |].
  split; [vm_compute; reflexivity |]. split; [reflexivity |].
  split; [vm_compute; reflexivity |].
  assert (Hthrow : htmlStringToPdf (mkCanvas 1191 3369) 3
                   = Throw empty_image_message)
    by (vm_compute; reflexivity).
  split; [exact Hthrow |].
  intros fuel ds Hrun.
  assert (E : Throw empty_image_message = Normal ds).
  { apply (paginate_fuel_independent a4_width a4_height (mkCanvas 1191 3369)
             eq_refl eq_refl 3 fuel); try assumption; discriminate. }
  discriminate E.
Qed.

(** C2, as stated, fails: a canvas of height zero is not rejected.
    [htmlStringToPdf] returns normally on the 1191 x 0 canvas, having made
    no call on the document. *)
Lemma empty_canvas_is_not_rejected :
  canvas_height (mkCanvas 1191 0) = 0%N /\
  htmlStringToPdf (mkCanvas 1191 0) 0 = Normal [] /\
  ~ (exists msg, htmlStringToPdf (mkCanvas 1191 0) 0 = Throw msg).
Proof.
  split; [reflexivity |]. split; [reflexivity |].
  intros [msg H]. discriminate H.
Qed.

(** C2, amended.  The image paginator has no InvalidLayoutError and no
    EmptyImageError, and checks neither the layout nor the image: on a
    source image of height zero, whatever its width, on a page of
    positive width, it returns normally without having drawn a slice, so
    that the document keeps its one blank page. *)
Theorem paginate_empty_image_returns
  (pageWidth pageHeight : Q) (canvas : Canvas) (fuel : nat) :
  0 < pageWidth ->
  canvas_height canvas = 0%N ->
  paginate pageWidth pageHeight canvas fuel = Normal [] /\
  pages_of [] = [[]].
Proof.
  intros Hw Hch. split; [| reflexivity].
  unfold paginate, js_div.
  destruct (Qeq_dec (imgW pageWidth) 0) as [E | _].
  { pose proof (imgW_pos pageWidth Hw). lra. }
  cbn [bind]. rewrite Hch.
  destruct (Qeq_dec _ 0) as [_ | _]; [reflexivity |].
  apply loop_done. change (of_uint 0) with 0. unfold Qdiv. lra.
Qed.

Lemma paginate_empty_image_returns_witness :
  paginate 595 842 (mkCanvas 794 0) 0 = Normal [] /\
  pages_of [] = [[]].
Proof.
  apply (paginate_empty_image_returns 595 842 (mkCanvas 794 0) 0);
    reflexivity.
Defined.

(** C3, as stated, fails: on the 595 x 842 page with no margin the
    794 x 3000 image gives three slices, not four, and the last one is
    753 pixel rows tall, not 474. *)
Lemma scenario_has_three_slices :
  exists ds,
    paginate 595 842 (mkCanvas 794 3000) 4 = Normal ds /\
    List.length (slices_of ds) = 3%nat /\
    List.length (slices_of ds) <> 4%nat /\
    map slice_rows (slices_of ds) = [1124; 1124; 753]%Z /\
    last (map slice_rows (slices_of ds)) 0%Z <> 474%Z.
Proof.
  eexists. split; [vm_compute; reflexivity |].
  repeat split; try reflexivity; vm_compute; discriminate.
Qed.

(** C3, amended.  For the page of 595 x 842 points with no margin and the
    source image of 794 x 3000 pixels, the image paginator draws exactly
    3 slices, with the ratio 794/595; the image is 3000 * 595 / 794
    (about 2248.1) points tall, the slices are 842, 842 and about 564.1
    points tall and 1124, 1124 and 753 pixel rows tall. *)
Theorem scenario_slices :
  exists ds,
    paginate 595 842 (mkCanvas 794 3000) 3 = Normal ds /\
    ratio_of 595 (mkCanvas 794 3000) == 794 # 595 /\
    imgH_of 595 (mkCanvas 794 3000) == 3000 * 595 / 794 /\
    List.length (slices_of ds) = 3%nat /\
    map slice_rows (slices_of ds) = [1124; 1124; 753]%Z /\
    Forall2 Qeq (map slice_h (slices_of ds))
      [842; 842; 3000 * 595 / 794 - 2 * 842] /\
    List.length (pages_of ds) = 3%nat.
Proof.
  eexists. split; [vm_compute; reflexivity |].
  repeat split; try reflexivity.
  repeat constructor; reflexivity.
Qed.

(** C7.  On a page of positive size, in the calls of every document the
    image paginator returns, the slices come in strictly increasing order
    of their source offset, a new page is opened before every slice
    except the first, and slice number [i], counted from 0, is what page
    number [i] of the document holds; when the canvas has a row, there is
    a slice, and as many pages as slices.  Such a document is returned,
    with [k + 1] slices, for every canvas that fills [k] pages and ends
    on the next one clear of the page ends. *)
Theorem paginate_slice_order
  (pageWidth pageHeight : Q) (canvas : Canvas) (k : nat) :
  0 < pageWidth ->
  0 < pageHeight ->
  (0 < canvas_width canvas)%N ->
  (forall fuel ds,
     paginate pageWidth pageHeight canvas fuel = Normal ds ->
     StronglySorted (fun a b => slice_srcY a < slice_srcY b) (slices_of ds) /\
     ds = with_page_breaks (slices_of ds) /\
     (forall i sl, nth_error (slices_of ds) i = Some sl ->
                   nth_error (pages_of ds) i = Some [draw sl]) /\
     ((0 < canvas_height canvas)%N ->
      slices_of ds <> [] /\
      List.length (pages_of ds) = List.length (slices_of ds))) /\
  (clear_of_page_ends pageWidth pageHeight canvas k = true ->
   exists fuel ds,
     paginate pageWidth pageHeight canvas fuel = Normal ds /\
     List.length (slices_of ds) = S k).
Proof.
  intros Hw Hp Hcw. split.
  - intros fuel ds Hrun.
    rewrite paginate_loop in Hrun by assumption.
    pose proof (ratio_pos pageWidth canvas Hw Hcw) as Hratio.
    pose proof (loop_breaks _ _ _ _ Hp _ _ _ Hrun) as Hbreaks.
    split; [| split; [exact Hbreaks |]].
    + apply (loop_srcY_sorted _ _ _ _ Hp Hratio _ _ _ _ Hrun).
    + destruct (slices_of ds) as [| sl0 sls] eqn:E.
      * split; [intros [| i] sl; discriminate |].
        intros Hch. exfalso.
        apply (proj1 (loop_draws _ _ _ _ _ _ _ _ Hrun));
          [apply imgH_pos; assumption | exact E].
      * rewrite Hbreaks, pages_of_with_page_breaks. split.
        -- intros i sl Hi. rewrite nth_error_map, Hi. reflexivity.
        -- intros _. split; [discriminate |].
           rewrite length_map. reflexivity.
  - intros Hclear.
    destruct (paginate_clear pageWidth pageHeight canvas Hw Hcw k Hclear)
      as [ds [Hrun Hlen]].
    exists (S k), ds. split; assumption.
Qed.

Lemma paginate_slice_order_witness :
  exists fuel ds,
    paginate 595 842 (mkCanvas 794 3000) fuel = Normal ds /\
    List.length (slices_of ds) = 3%nat /\
    StronglySorted (fun a b => slice_srcY a < slice_srcY b) (slices_of ds) /\
    ds = with_page_breaks (slices_of ds) /\
    List.length (pages_of ds) = List.length (slices_of ds).
Proof.
  destruct (paginate_slice_order 595 842 (mkCanvas 794 3000) 2)
    as [Hall Hret]; [reflexivity | reflexivity | reflexivity |].
  destruct (Hret eq_refl) as [fuel [ds [Hrun Hlen]]].
  destruct (Hall fuel ds Hrun) as [Hsorted [Hbreaks [_ Hpages]]].
  exists fuel, ds.
  split; [exact Hrun |]. split; [exact Hlen |].
  split; [exact Hsorted |]. split; [exact Hbreaks |].
  apply Hpages. reflexivity.
Defined.

(** C8, as stated, fails: the code does not clamp the rows of the last
    slice to the canvas.  On the 1191 x 3000 canvas [htmlStringToPdf]
    draws two slices, and the rows it asks [drawImage] for the second
    one run down to about 3000.4, past the last row of the canvas. *)
Lemma last_slice_overruns_canvas :
  exists ds sl,
    htmlStringToPdf (mkCanvas 1191 3000) 2 = Normal ds /\
    List.length (slices_of ds) = 2%nat /\
    nth_error (slices_of ds) 1 = Some sl /\
    of_uint (canvas_height (mkCanvas 1191 3000))
    < slice_srcY sl + inject_Z (slice_rows sl).
Proof.
  eexists. eexists. split; [vm_compute; reflexivity |].
  split; [reflexivity |]. split; [reflexivity |].
  vm_compute. reflexivity.
Qed.

(** C8, amended.  The loop ends without drawing once the remaining
    height is zero or negative, and on a page of positive size every
    slice of a document the image paginator returns has a positive
    destination height.  The rows asked of [drawImage] for a slice are not
    clamped to the canvas by the code: they start at row 0 or further
    down and end at most half a row beyond the last row of the canvas.
    Such a document is returned, with [k + 1] slices, for every canvas
    that fills [k] pages and ends on the next one clear of the page
    ends. *)
Theorem paginate_slices_positive_and_bounded
  (pageWidth pageHeight : Q) (canvas : Canvas) (k : nat) :
  0 < pageWidth ->
  0 < pageHeight ->
  (0 < canvas_width canvas)%N ->
  (forall ratio fuel remaining srcY,
     remaining <= 0 ->
     slice_loop pageWidth pageHeight canvas ratio fuel remaining srcY
     = Normal []) /\
  (forall fuel ds,
     paginate pageWidth pageHeight canvas fuel = Normal ds ->
     Forall (fun sl => 0 < slice_h sl) (slices_of ds) /\
     Forall (fun sl => 0 <= slice_srcY sl) (slices_of ds) /\
     Forall (fun sl =>
               slice_srcY sl + inject_Z (slice_rows sl)
               <= of_uint (canvas_height canvas) + (1#2))
       (slices_of ds) /\
     ((0 < canvas_height canvas)%N -> slices_of ds <> [])) /\
  (clear_of_page_ends pageWidth pageHeight canvas k = true ->
   exists fuel ds,
     paginate pageWidth pageHeight canvas fuel = Normal ds /\
     List.length (slices_of ds) = S k).
Proof.
  intros Hw Hp Hcw. split; [| split].
  - intros ratio f r s Hr. apply loop_done. assumption.
  - intros fuel ds Hrun.
    rewrite paginate_loop in Hrun by assumption.
    pose proof (ratio_pos pageWidth canvas Hw Hcw) as Hratio.
    split; [| split; [| split]].
    + apply (loop_heights_pos _ _ _ _ Hp _ _ _ _ Hrun).
    + apply (loop_srcY_sorted _ _ _ _ Hp Hratio _ _ _ _ Hrun). lra.
    + apply (loop_rows_bound _ _ _ _ _ _ _ _ (Qlt_le_weak _ _ Hratio) Hrun).
      pose proof (imgH_ratio pageWidth canvas Hw Hcw). lra.
    + intros Hch. apply (proj1 (loop_draws _ _ _ _ _ _ _ _ Hrun)).
      apply imgH_pos; assumption.
  - intros Hclear.
    destruct (paginate_clear pageWidth pageHeight canvas Hw Hcw k Hclear)
      as [ds [Hrun Hlen]].
    exists (S k), ds. split; assumption.
Qed.

Lemma paginate_slices_positive_and_bounded_witness :
  exists fuel ds,
    paginate a4_width a4_height (mkCanvas 1191 3000) fuel = Normal ds /\
    List.length (slices_of ds) = 2%nat /\
    Forall (fun sl => 0 < slice_h sl) (slices_of ds) /\
    Forall (fun sl => 0 <= slice_srcY sl) (slices_of ds) /\
    Forall (fun sl =>
              slice_srcY sl + inject_Z (slice_rows sl)
              <= of_uint (canvas_height (mkCanvas 1191 3000)) + (1#2))
      (slices_of ds).
Proof.
  destruct (paginate_slices_positive_and_bounded a4_width a4_height
              (mkCanvas 1191 3000) 1)
    as [_ [Hall Hret]]; [reflexivity | reflexivity | reflexivity |].
  destruct (Hret eq_refl) as [fuel [ds [Hrun Hlen]]].
  destruct (Hall fuel ds Hrun) as [Hpos [Hstart [Hend _]]].
  exists fuel, ds.
  split; [exact Hrun |]. split; [exact Hlen |].
  split; [exact Hpos |]. split; [exact Hstart | exact Hend].
Defined.
End ImagePaginator.

(* ================================================================== *)
(** ** The text paginator: lines laid out down the pages               *)
(* ================================================================== *)

Lemma pages_of_nonempty (ds : list directive) : pages_of ds <> [].
Proof.
  induction ds as [| d ds IH]; simpl; [discriminate |].
  destruct d; try discriminate; destruct (pages_of ds); discriminate.
Qed.

(** A drawing call goes to the current page. *)
Lemma pages_of_draw (d : directive) (ds : list directive) :
  d <> AddPage ->
  exists p ps, pages_of ds = p :: ps /\ pages_of (d :: ds) = (d :: p) :: ps.
Proof.
  intros Hd. destruct (pages_of ds) as [| p ps] eqn:E.
  - exfalso. exact (pages_of_nonempty ds E).
  - exists p, ps. split; [reflexivity |].
    destruct d; [congruence | |]; simpl; rewrite E; reflexivity.
Qed.

(** The lines of the pages, page after page, are the lines of the calls. *)
Lemma lines_of_pages (ds : list directive) :
  concat (map lines_of (pages_of ds)) = lines_of ds.
Proof.
  induction ds as [| d ds IH]; [reflexivity |].
  destruct d as [| data fmt x y w h | line x y].
  - simpl. exact IH.
  - destruct (pages_of_draw (AddImage data fmt x y w h) ds) as [p [ps [E1 E2]]];
      [discriminate |].
    rewrite E2. rewrite E1 in IH. simpl in *. exact IH.
  - destruct (pages_of_draw (Text line x y) ds) as [p [ps [E1 E2]]];
      [discriminate |].
    rewrite E2. rewrite E1 in IH. simpl in *. rewrite IH. reflexivity.
Qed.

Module TextLoop.
Import ConvertTxt.

Section Facts.
Variables pageWidth pageHeight : Q.

Local Abbreviation place := (place_lines pageHeight).

(** The two ways a round of the [for] loop goes. *)
Lemma place_break (line : string) (rest : list string) (y : Q) :
  pageHeight - margin < y + lineHeight ->
  place (line :: rest) y =
  AddPage :: Text line margin firstBaseline
    :: place rest (firstBaseline + lineHeight).
Proof.
  intros H. cbn [place_lines].
  destruct (Qlt_le_dec (pageHeight - margin) (y + lineHeight));
    [reflexivity | lra].
Qed.

Lemma place_same_page (line : string) (rest : list string) (y : Q) :
  y + lineHeight <= pageHeight - margin ->
  place (line :: rest) y = Text line margin y :: place rest (y + lineHeight).
Proof.
  intros H. cbn [place_lines].
  destruct (Qlt_le_dec (pageHeight - margin) (y + lineHeight));
    [lra | reflexivity].
Qed.

(** Every line is drawn once, in order. *)
Lemma lines_of_place (lines : list string) :
  forall y, lines_of (place lines y) = lines.
Proof.
  induction lines as [| line rest IH]; intros y; [reflexivity |].
  destruct (Qlt_le_dec (pageHeight - margin) (y + lineHeight)) as [Hb | Hs].
  - rewrite place_break by assumption. simpl. rewrite IH. reflexivity.
  - rewrite place_same_page by assumption. simpl. rewrite IH. reflexivity.
Qed.

(** The pages of the calls of the loop, by cases on its first round. *)
Lemma pages_of_place_break (line : string) (rest : list string) (y : Q) :
  pageHeight - margin < y + lineHeight ->
  exists p ps,
    pages_of (place rest (firstBaseline + lineHeight)) = p :: ps /\
    pages_of (place (line :: rest) y)
    = [] :: (Text line margin firstBaseline :: p) :: ps.
Proof.
  intros H. rewrite place_break by assumption.
  destruct (pages_of_draw (Text line margin firstBaseline)
              (place rest (firstBaseline + lineHeight)))
    as [p [ps [E1 E2]]]; [discriminate |].
  exists p, ps. split; [exact E1 |].
  cbn [pages_of] in E2 |- *. rewrite E2. reflexivity.
Qed.

Lemma pages_of_place_same_page (line : string) (rest : list string) (y : Q) :
  y + lineHeight <= pageHeight - margin ->
  exists p ps,
    pages_of (place rest (y + lineHeight)) = p :: ps /\
    pages_of (place (line :: rest) y) = (Text line margin y :: p) :: ps.
Proof.
  intros H. rewrite place_same_page by assumption.
  apply pages_of_draw. discriminate.
Qed.

Lemma line_count_cons (line : string) (x y : Q) (p : page) :
  line_count (Text line x y :: p) == line_count p + 1.
Proof.
  unfold line_count. cbn [baselines List.length]. apply inject_nat_succ.
Qed.

Lemma fits_morphism (y y' : Q) :
  y == y' -> fits pageHeight y -> fits pageHeight y'.
Proof. unfold fits. intros E H. rewrite <- E. exact H. Qed.

(** What the pages of the loop look like, the loop starting at baseline
    [y] on the current page: baselines go down in steps of [lineHeight],
    from [y] on the current page and from [firstBaseline] on the later
    ones; a line that is not the first of its page fits; and a page is
    left only when it is full. *)
Lemma place_pages (lines : list string) :
  forall y, exists p ps,
    pages_of (place lines y) = p :: ps /\
    stepped_from y (baselines p) /\
    Forall (fun q => stepped_from firstBaseline (baselines q)) ps /\
    Forall (fits pageHeight) (baselines p) /\
    (fits pageHeight firstBaseline ->
     Forall (fun q => Forall (fits pageHeight) (baselines q)) ps) /\
    breaks_when_full pageHeight y (p :: ps).
Proof.
  induction lines as [| line rest IH]; intros y.
  - exists [], []. repeat split; try constructor. congruence.
  - destruct (Qlt_le_dec (pageHeight - margin) (y + lineHeight)) as [Hb | Hs].
    + destruct (pages_of_place_break line rest y Hb) as [p [ps [E1 E2]]].
      destruct (IH (firstBaseline + lineHeight))
        as [p' [ps' [E' [Hstep [Hsteps [Hfit [Hfits Hfull]]]]]]].
      rewrite E1 in E'. injection E' as <- <-.
      exists [], ((Text line margin firstBaseline :: p) :: ps).
      split; [exact E2 |]. split; [exact I |].
      split; [| split; [constructor | split]].
      * constructor; [| exact Hsteps].
        cbn [baselines stepped_from]. split; [reflexivity | exact Hstep].
      * intros Hfirst. constructor; [| exact (Hfits Hfirst)].
        cbn [baselines]. constructor; assumption.
      * destruct Hfull as [Hleave Hrest].
        cbn [breaks_when_full]. split; [| split; [| exact Hrest]].
        -- intros _ Hf. unfold fits, line_count in Hf.
           cbn [baselines List.length Z.of_nat] in Hf.
           change (inject_Z 0) with 0 in Hf. lra.
        -- intros Hps Hf. apply (Hleave Hps).
           eapply fits_morphism; [| exact Hf].
           rewrite line_count_cons. ring.
    + destruct (pages_of_place_same_page line rest y Hs) as [p [ps [E1 E2]]].
      destruct (IH (y + lineHeight))
        as [p' [ps' [E' [Hstep [Hsteps [Hfit [Hfits Hfull]]]]]]].
      rewrite E1 in E'. injection E' as <- <-.
      exists (Text line margin y :: p), ps.
      split; [exact E2 |]. split; [| split; [exact Hsteps | split; [| split]]].
      * cbn [baselines stepped_from]. split; [reflexivity | exact Hstep].
      * cbn [baselines]. constructor; assumption.
      * exact Hfits.
      * destruct Hfull as [Hleave Hrest].
        cbn [breaks_when_full]. split; [| exact Hrest].
        intros Hps Hf. apply (Hleave Hps).
        eapply fits_morphism; [| exact Hf].
        rewrite line_count_cons. ring.
Qed.
End Facts.
End TextLoop.

Section TextPaginator.
Import ConvertTxt TextLoop.

(** On the A4 page 48 lines go on a page: a hundred lines make pages of 48,
    48 and 4 lines, the first at baseline 70 and the last of a full page at
    baseline 775. *)
Example a4_pages_of_100_lines :
  let pages := pages_of (convertTxt (fun text _ => repeat text 100) "a") in
  map (fun p => List.length (baselines p)) pages = [48; 48; 4]%nat /\
  Forall2 Qeq (map (fun p => hd 0 (baselines p)) pages) [70; 70; 70] /\
  Forall2 Qeq (map (fun p => last (baselines p) 0) pages) [775; 775; 115].
Proof.
  split; [vm_compute; reflexivity |].
  split; vm_compute; repeat constructor.
Qed.

(** C4, as stated, fails: the first line of a page is not drawn at
    [margin + lineHeight] (65) but at [margin + 20] (70), here for a text
    of one line. *)
Lemma first_baseline_is_not_margin_plus_lineHeight :
  exists y,
    pages_of (convertTxt (fun text _ => [text]) "a") = [[Text "a" margin y]] /\
    y == 70 /\
    ~ y == margin + lineHeight.
Proof.
  exists firstBaseline. split; [reflexivity |]. split; [reflexivity |].
  unfold firstBaseline, margin, lineHeight. lra.
Qed.

(** C4, amended.  With [lineHeight] 15, the text paginator draws the first
    line of every page at baseline [margin + 20] and each next line
    [lineHeight] further down; before it draws a line whose
    [y + lineHeight] exceeds [pageHeight - margin] it opens a new page and
    goes back to baseline [margin + 20], and otherwise it draws the line on
    the current page; so a page is followed by a new one only when a
    further line on it would exceed [pageHeight - margin], and, on a page
    tall enough for one line, every line drawn satisfies
    [y + lineHeight <= pageHeight - margin]. *)
Theorem text_pages_layout
  (pageWidth pageHeight : Q) (splitTextToSize : string -> Q -> list string)
  (text : string) :
  let pages :=
    pages_of (paginate pageWidth pageHeight splitTextToSize text) in
  firstBaseline == margin + 20 /\
  lineHeight == 15 /\
  Forall (fun p => stepped_from firstBaseline (baselines p)) pages /\
  (forall line rest y,
     pageHeight - margin < y + lineHeight ->
     place_lines pageHeight (line :: rest) y
     = AddPage :: Text line margin firstBaseline
         :: place_lines pageHeight rest (firstBaseline + lineHeight)) /\
  (forall line rest y,
     y + lineHeight <= pageHeight - margin ->
     place_lines pageHeight (line :: rest) y
     = Text line margin y :: place_lines pageHeight rest (y + lineHeight)) /\
  breaks_when_full pageHeight firstBaseline pages /\
  (fits pageHeight firstBaseline ->
   Forall (fun p => Forall (fits pageHeight) (baselines p)) pages).
Proof.
  intros pages. subst pages. unfold paginate.
  destruct (place_pages pageHeight
              (splitTextToSize text (maxWidth pageWidth)) firstBaseline)
    as [p [ps [E [Hstep [Hsteps [Hfit [Hfits Hfull]]]]]]].
  rewrite E. split; [reflexivity |]. split; [reflexivity |].
  split; [constructor; assumption |].
  split; [intros; apply place_break; assumption |].
  split; [intros; apply place_same_page; assumption |].
  split; [exact Hfull |].
  intros Hfirst. constructor; [assumption | exact (Hfits Hfirst)].
Qed.

Lemma text_pages_layout_witness :
  let pages :=
    pages_of (convertTxt (fun text _ => repeat text 100) "a") in
  Forall (fun p => stepped_from firstBaseline (baselines p)) pages /\
  breaks_when_full a4_height firstBaseline pages /\
  Forall (fun p => Forall (fits a4_height) (baselines p)) pages.
Proof.
  destruct (text_pages_layout a4_width a4_height
              (fun text _ => repeat text 100) "a")
    as [_ [_ [Hsteps [_ [_ [Hfull Hfits]]]]]].
  split; [exact Hsteps |]. split; [exact Hfull |].
  apply Hfits. unfold fits. vm_compute. discriminate.
Defined.

(** C5.  For every text, the lines of the pages of the text paginator,
    taken page after page, are the wrapped lines (the result of
    [splitTextToSize]): each line once, whole, in the original order. *)
Theorem text_pages_keep_lines
  (pageWidth pageHeight : Q) (splitTextToSize : string -> Q -> list string)
  (text : string) :
  concat (map lines_of
            (pages_of (paginate pageWidth pageHeight splitTextToSize text)))
  = splitTextToSize text (maxWidth pageWidth).
Proof.
  rewrite lines_of_pages. unfold paginate. apply lines_of_place.
Qed.

(** [convertTxt] itself, on the A4 page: every line it draws fits the
    page, whatever the text. *)
Corollary convertTxt_lines_fit
  (splitTextToSize : string -> Q -> list string) (text : string) :
  Forall (fun p => Forall (fits a4_height) (baselines p))
    (pages_of (convertTxt splitTextToSize text)).
Proof.
  unfold convertTxt, paginate.
  destruct (place_pages a4_height
              (splitTextToSize text (maxWidth a4_width)) firstBaseline)
    as [p [ps [E [_ [_ [Hfit [Hfits _]]]]]]].
  rewrite E. constructor; [exact Hfit |].
  apply Hfits. unfold fits. vm_compute. discriminate.
Qed.
End TextPaginator.

(* ================================================================== *)
(** ** [convertImage]: one image, scaled to fit and centred            *)
(* ================================================================== *)

Section SingleImage.
Import ConvertImage.



End SingleImage.

(* ================================================================== *)
(** ** File names                                                      *)
(* ================================================================== *)

Section FileNames.

Example getExtension_of_names :
  map (fun n => getExtension (mkFile n))
    ["Report.DOCX"; "a.b.Png"; "notes"; "x."; ""]%string
  = [".docx"; ".png"; ".notes"; "."; "."]%string.
Proof. reflexivity. Qed.

Example isValidFile_of_names :
  map (fun n => isValidFile (mkFile n))
    ["Report.DOCX"; "a.b.Png"; "notes"; "x.pdf"; "jpeg"]%string
  = [true; true; false; false; true].
Proof. reflexivity. Qed.

(** A name without a dot is one segment. *)
Lemma split_no_dot (s : string) : has_dot s = false -> split "." s = [s].
Proof.
  induction s as [| c s IH]; [reflexivity |].
  cbn [has_dot split]. intros H. apply orb_false_iff in H as [Hc Hs].
  rewrite Hc, (IH Hs). reflexivity.
Qed.

Lemma includes_In (a : list string) (x : string) :
  In x a -> includes a x = true.
Proof.
  intros H. unfold includes. apply existsb_exists.
  exists x. split; [exact H | apply String.eqb_refl].
Qed.

(** C10.  A file whose name has no dot is accepted whenever its whole
    name, in lower case and with a dot put in front, is one of the
    accepted extensions: the extension of such a name is the whole
    name. *)
Theorem dotless_name_is_its_own_extension (file : File) :
  has_dot (file_name file) = false ->
  In (String "." (toLowerCase (file_name file))) ACCEPTED_EXTENSIONS ->
  getExtension file = String "." (toLowerCase (file_name file)) /\
  isValidFile file = true.
Proof.
  intros Hdot Hin.
  assert (E : getExtension file = String "." (toLowerCase (file_name file))).
  { unfold getExtension. rewrite split_no_dot by assumption. reflexivity. }
  split; [exact E |].
  unfold isValidFile. rewrite E. apply includes_In. exact Hin.
Qed.

Lemma dotless_name_is_its_own_extension_witness :
  (getExtension (mkFile "txt") = ".txt"%string /\
   isValidFile (mkFile "txt") = true) /\
  (getExtension (mkFile "PNG") = ".png"%string /\
   isValidFile (mkFile "PNG") = true).
Proof.
  split.
  - apply (dotless_name_is_its_own_extension (mkFile "txt")).
    + reflexivity.
    + right. left. reflexivity.
  - apply (dotless_name_is_its_own_extension (mkFile "PNG")).
    + reflexivity.
    + do 3 right. left. reflexivity.
Defined.
End FileNames.

(* ================================================================== *)
(** ** More on file names: extensions                                  *)
(* ================================================================== *)

Section Extensions.

Lemma lower_char_dot (c : ascii) :
  Ascii.eqb (lower_char c) "." = Ascii.eqb c ".".
Proof. destruct c as [[] [] [] [] [] [] [] []]; reflexivity. Qed.

Lemma upper_char_dot (c : ascii) :
  Ascii.eqb (upper_char c) "." = Ascii.eqb c ".".
Proof. destruct c as [[] [] [] [] [] [] [] []]; reflexivity. Qed.

Lemma lower_char_idem (c : ascii) : lower_char (lower_char c) = lower_char c.
Proof. destruct c as [[] [] [] [] [] [] [] []]; reflexivity. Qed.

Lemma lower_upper_char (c : ascii) : lower_char (upper_char c) = lower_char c.
Proof. destruct c as [[] [] [] [] [] [] [] []]; reflexivity. Qed.

Lemma lower_char_ext (c : ascii) : ext_char (lower_char c) = ext_char c.
Proof. destruct c as [[] [] [] [] [] [] [] []]; reflexivity. Qed.

Lemma map_string_map_string (f g : ascii -> ascii) (s : string) :
  map_string f (map_string g s) = map_string (fun c => f (g c)) s.
Proof. induction s as [| c s IH]; simpl; [| rewrite IH]; reflexivity. Qed.

Lemma map_string_ext (f g : ascii -> ascii) (s : string) :
  (forall c, f c = g c) -> map_string f s = map_string g s.
Proof.
  intros H. induction s as [| c s IH]; simpl; [| rewrite H, IH]; reflexivity.
Qed.

Lemma split_nonempty (sep : ascii) (s : string) : split sep s <> [].
Proof.
  induction s as [| c s IH]; simpl; [discriminate |].
  destruct (Ascii.eqb c sep); [discriminate |].
  destruct (split sep s); discriminate.
Qed.

(** The segments of a name have no dot in them. *)
Lemma split_segments_dotless (s : string) :
  Forall (fun seg => has_dot seg = false) (split "." s).
Proof.
  induction s as [| c s IH]; simpl.
  - constructor; [reflexivity | constructor].
  - destruct (Ascii.eqb c ".") eqn:E.
    + constructor; [reflexivity | exact IH].
    + destruct (split "." s) as [| hd tl];
        [repeat constructor; simpl; now rewrite E |].
      inversion IH as [| ? ? Hhd Htl]; subst.
      constructor; [simpl; rewrite E; exact Hhd | exact Htl].
Qed.

Lemma pop_in (a : list string) : a <> [] -> In (pop a) a.
Proof.
  unfold pop. induction a as [| x a IH]; [congruence |]. intros _.
  destruct a as [| y a]; [left; reflexivity |].
  right. apply IH. discriminate.
Qed.

Lemma pop_dotless (s : string) : has_dot (pop (split "." s)) = false.
Proof.
  pose proof (split_segments_dotless s) as H.
  rewrite Forall_forall in H. apply H. apply pop_in. apply split_nonempty.
Qed.

Lemma pop_cons (x : string) (a : list string) :
  a <> [] -> pop (x :: a) = pop a.
Proof. unfold pop. destruct a; [congruence | reflexivity]. Qed.

(** The last segment of [base ++ "." ++ rest] is the last segment of
    [rest]. *)
Lemma pop_split_app (base rest : string) :
  pop (split "." (base ++ String "." rest)) = pop (split "." rest).
Proof.
  induction base as [| c base IH]; simpl.
  - apply pop_cons. apply split_nonempty.
  - destruct (Ascii.eqb c ".").
    + rewrite pop_cons by apply split_nonempty. exact IH.
    + destruct (split "." (base ++ String "." rest)) as [| hd tl] eqn:E.
      * exfalso. exact (split_nonempty _ _ E).
      * destruct tl as [| hd' tl'].
        -- exfalso. clear IH.
           assert (H : (2 <= List.length
                              (split "." (base ++ String "." rest)))%nat).
           { clear E. induction base as [| c' base IHb]; simpl.
             - pose proof (split_nonempty "." rest).
               destruct (split "." rest); [congruence | simpl; lia].
             - destruct (Ascii.eqb c' "."); [simpl; lia |].
               destruct (split "." (base ++ String "." rest));
                 simpl in *; lia. }
           rewrite E in H. simpl in H. lia.
        -- rewrite <- IH. unfold pop. reflexivity.
Qed.

Lemma toLowerCase_dotless (s : string) :
  has_dot (toLowerCase s) = has_dot s.
Proof.
  induction s as [| c s IH]; simpl; [reflexivity |].
  rewrite lower_char_dot. unfold toLowerCase in IH. rewrite IH. reflexivity.
Qed.

Lemma toLowerCase_idem (s : string) :
  toLowerCase (toLowerCase s) = toLowerCase s.
Proof.
  unfold toLowerCase. rewrite map_string_map_string.
  apply map_string_ext. apply lower_char_idem.
Qed.

(** [split] goes through a mapping of the characters that keeps dots and
    only dots as dots. *)
Lemma split_map_string (f : ascii -> ascii) (s : string) :
  (forall c, Ascii.eqb (f c) "." = Ascii.eqb c ".") ->
  split "." (map_string f s) = map (map_string f) (split "." s).
Proof.
  intros Hf. induction s as [| c s IH]; simpl; [reflexivity |].
  rewrite Hf, IH. destruct (Ascii.eqb c "."); [reflexivity |].
  destruct (split "." s); reflexivity.
Qed.

Lemma pop_map (g : string -> string) (a : list string) :
  a <> [] -> pop (map g a) = g (pop a).
Proof.
  unfold pop. induction a as [| x a IH]; [congruence |]. intros _.
  destruct a as [| y a]; [reflexivity |].
  change (last (map g (x :: y :: a)) EmptyString)
    with (last (map g (y :: a)) EmptyString).
  rewrite IH by discriminate. reflexivity.
Qed.

Lemma getExtension_map (f : ascii -> ascii) (name : string) :
  (forall c, Ascii.eqb (f c) "." = Ascii.eqb c ".") ->
  (forall c, lower_char (f c) = lower_char c) ->
  getExtension (mkFile (map_string f name)) = getExtension (mkFile name).
Proof.
  intros Hdot Hlow. unfold getExtension. cbn [file_name].
  rewrite split_map_string by assumption.
  rewrite pop_map by apply split_nonempty.
  unfold toLowerCase. rewrite map_string_map_string.
  f_equal. apply map_string_ext. exact Hlow.
Qed.

End Extensions.

Section ExtensionProperties.

Lemma getExtension_app (base ext : string) :
  has_dot ext = false ->
  getExtension (mkFile (base ++ String "." ext)) = String "." (toLowerCase ext).
Proof.
  intros Hext. unfold getExtension. cbn [file_name].
  rewrite pop_split_app, split_no_dot by assumption. reflexivity.
Qed.

(** X1.  The extension of a name [base.ext], where [ext] has no dot, is
    ["." ++ ext] in lower case, whatever [base] is; so two names with the
    same last segment are accepted or rejected together. *)
Theorem getExtension_is_last_segment (base base' ext : string) :
  has_dot ext = false ->
  getExtension (mkFile (base ++ String "." ext))
  = String "." (toLowerCase ext) /\
  isValidFile (mkFile (base ++ String "." ext))
  = isValidFile (mkFile (base' ++ String "." ext)).
Proof.
  intros Hext. split; [apply getExtension_app; assumption |].
  unfold isValidFile. rewrite !getExtension_app by assumption. reflexivity.
Qed.

Lemma getExtension_is_last_segment_witness :
  getExtension (mkFile ("Annual.Report" ++ String "." "DocX"))
  = String "." (toLowerCase "DocX") /\
  isValidFile (mkFile ("Annual.Report" ++ String "." "DocX"))
  = isValidFile (mkFile ("x" ++ String "." "DocX")).
Proof.
  apply (getExtension_is_last_segment "Annual.Report" "x" "DocX").
  reflexivity.
Defined.

(** X2.  Whatever the file name, the extension [getExtension] returns is a
    dot followed by a text without any dot that is already in lower case;
    removing the first dot, as [convertImage] does, leaves that text. *)
Theorem getExtension_shape (file : File) :
  exists e,
    getExtension file = String "." e /\
    has_dot e = false /\
    toLowerCase e = e /\
    remove_first "." (getExtension file) = e.
Proof.
  exists (toLowerCase (pop (split "." (file_name file)))).
  split; [reflexivity |]. split; [| split].
  - rewrite toLowerCase_dotless. apply pop_dotless.
  - apply toLowerCase_idem.
  - reflexivity.
Qed.

(** X3.  The file-type check ignores the case of the name: a name, the
    name in upper case and the name in lower case have the same extension
    and are accepted or rejected together. *)
Theorem isValidFile_ignores_case (name : string) :
  getExtension (mkFile (toUpperCase name)) = getExtension (mkFile name) /\
  getExtension (mkFile (toLowerCase name)) = getExtension (mkFile name) /\
  isValidFile (mkFile (toUpperCase name)) = isValidFile (mkFile name) /\
  isValidFile (mkFile (toLowerCase name)) = isValidFile (mkFile name).
Proof.
  assert (Hu : getExtension (mkFile (toUpperCase name))
               = getExtension (mkFile name)).
  { apply getExtension_map; [apply upper_char_dot | apply lower_upper_char]. }
  assert (Hl : getExtension (mkFile (toLowerCase name))
               = getExtension (mkFile name)).
  { apply getExtension_map; [apply lower_char_dot | apply lower_char_idem]. }
  unfold isValidFile. rewrite Hu, Hl. repeat split; reflexivity.
Qed.

(** X4.  A name that ends in a dot, and the empty name, have the extension
    ["."] and are rejected. *)
Theorem names_without_extension_rejected (base : string) :
  getExtension (mkFile (base ++ ".")) = "."%string /\
  isValidFile (mkFile (base ++ ".")) = false /\
  getExtension (mkFile "") = "."%string /\
  isValidFile (mkFile "") = false.
Proof.
  assert (E : getExtension (mkFile (base ++ ".")) = "."%string)
    by (apply (getExtension_app base ""); reflexivity).
  unfold isValidFile. rewrite E. repeat split; reflexivity.
Qed.

(** The names [isValidFile] accepts: the last segment, in lower case, is
    one of the six words. *)
Lemma isValidFile_inv (file : File) :
  isValidFile file = true ->
  In (getExtension file) ACCEPTED_EXTENSIONS.
Proof.
  unfold isValidFile, includes. intros H.
  apply existsb_exists in H as [x [Hin Heq]].
  apply String.eqb_eq in Heq. subst x. exact Hin.
Qed.

Lemma accepted_cases (ext : string) :
  In ext ACCEPTED_EXTENSIONS ->
  ext = ".docx"%string \/ ext = ".txt"%string \/ ext = ".html"%string \/
  ext = ".png"%string \/ ext = ".jpg"%string \/ ext = ".jpeg"%string.
Proof.
  simpl. intros [H | [H | [H | [H | [H | [H | []]]]]]]; subst; tauto.
Qed.

(** X5.  [convertFile] finds a converter for every file that
    [isValidFile] accepts, and only for those: the error
    "Unsupported file type." is thrown exactly for the rejected files. *)
Theorem dispatch_total_on_valid_files (file : File) :
  (isValidFile file = true <->
   exists c, dispatch (getExtension file) = Normal c) /\
  (isValidFile file = false <->
   dispatch (getExtension file) = Throw "Unsupported file type.").
Proof.
  assert (Hyes : isValidFile file = true ->
                 exists c, dispatch (getExtension file) = Normal c).
  { intros H. apply isValidFile_inv, accepted_cases in H.
    destruct H as [H | [H | [H | [H | [H | H]]]]]; rewrite H;
      eexists; reflexivity. }
  assert (Hno : isValidFile file = false ->
                dispatch (getExtension file) = Throw "Unsupported file type.").
  { unfold isValidFile, dispatch, includes, ACCEPTED_EXTENSIONS,
      IMAGE_EXTENSIONS. cbn [existsb].
    intros H. repeat (apply orb_false_iff in H as [? H]).
    repeat match goal with E : String.eqb _ _ = false |- _ =>
      rewrite E; clear E end.
    reflexivity. }
  split; split.
  - exact Hyes.
  - intros [c Hc]. destruct (isValidFile file) eqn:E; [reflexivity |].
    rewrite (Hno eq_refl) in Hc. discriminate.
  - exact Hno.
  - intros Ht. destruct (isValidFile file) eqn:E; [| reflexivity].
    destruct (Hyes eq_refl) as [c Hc]. rewrite Hc in Ht. discriminate.
Qed.

(** X6.  For a file that [isValidFile] accepts, the file card is labelled
    "IMG" exactly when a thumbnail is asked for, which is exactly when
    [convertFile] hands the file to [convertImage]. *)
Theorem image_label_thumbnail_and_converter_agree (file : File) :
  isValidFile file = true ->
  let ext := getExtension file in
  (icon_label ext = "IMG"%string <-> has_thumbnail ext = true) /\
  (has_thumbnail ext = true <-> dispatch ext = Normal ImageConverter).
Proof.
  intros H ext. subst ext. apply isValidFile_inv, accepted_cases in H.
  destruct H as [H | [H | [H | [H | [H | H]]]]]; rewrite H;
    split; split; intros E; try reflexivity; discriminate E.
Qed.

Lemma image_label_thumbnail_and_converter_agree_witness :
  let ext := getExtension (mkFile "photo.JPG") in
  (icon_label ext = "IMG"%string <-> has_thumbnail ext = true) /\
  (has_thumbnail ext = true <-> dispatch ext = Normal ImageConverter).
Proof.
  apply (image_label_thumbnail_and_converter_agree (mkFile "photo.JPG")).
  reflexivity.
Defined.

(** X7.  For every file with an image extension, the format name that
    [convertImage] hands to [doc.addImage] is "PNG" for [.png] and "JPEG"
    for [.jpg] and [.jpeg]. *)
Theorem image_format_is_png_or_jpeg (file : File) :
  includes IMAGE_EXTENSIONS (getExtension file) = true ->
  (getExtension file = ".png"%string /\
   ConvertImage.format_of file = "PNG"%string) \/
  (getExtension file <> ".png"%string /\
   ConvertImage.format_of file = "JPEG"%string).
Proof.
  unfold includes. intros H.
  apply existsb_exists in H as [x [Hin Heq]].
  apply String.eqb_eq in Heq. subst x.
  unfold ConvertImage.format_of.
  simpl in Hin. destruct Hin as [H | [H | [H | []]]]; rewrite <- H.
  - left. split; reflexivity.
  - right. split; [discriminate | reflexivity].
  - right. split; [discriminate | reflexivity].
Qed.

Lemma image_format_is_png_or_jpeg_witness :
  (getExtension (mkFile "scan.JPeG") = ".png"%string /\
   ConvertImage.format_of (mkFile "scan.JPeG") = "PNG"%string) \/
  (getExtension (mkFile "scan.JPeG") <> ".png"%string /\
   ConvertImage.format_of (mkFile "scan.JPeG") = "JPEG"%string).
Proof.
  apply (image_format_is_png_or_jpeg (mkFile "scan.JPeG")). reflexivity.
Defined.

End ExtensionProperties.

(* ================================================================== *)
(** ** The download name                                               *)
(* ================================================================== *)

Section DownloadName.

Lemma string_app_assoc (a b c : string) :
  ((a ++ b) ++ c = a ++ (b ++ c))%string.
Proof. induction a as [| x a IH]; simpl; [| rewrite IH]; reflexivity. Qed.

Lemma all_chars_ext_dotless (s : string) :
  all_chars ext_char s = true -> has_dot s = false.
Proof.
  induction s as [| c s IH]; simpl; [reflexivity |].
  intros H. apply andb_true_iff in H as [Hc Hs].
  rewrite (IH Hs). unfold ext_char in Hc.
  apply andb_true_iff in Hc as [_ Hc].
  destruct (Ascii.eqb c "."); [discriminate | reflexivity].
Qed.

Lemma all_chars_ext_app_dot (a b : string) :
  all_chars ext_char (a ++ String "." b) = false.
Proof.
  induction a as [| c a IH]; simpl; [reflexivity |].
  rewrite IH. apply andb_false_r.
Qed.

Lemma matches_ext_dot (ext : string) :
  ext <> EmptyString -> all_chars ext_char ext = true ->
  matches_ext (String "." ext) = true.
Proof.
  intros Hne Hall. destruct ext as [| c ext]; [congruence |].
  unfold matches_ext. rewrite Hall. reflexivity.
Qed.

Lemma matches_ext_before_dot (c : ascii) (a b : string) :
  matches_ext (String c (a ++ String "." b)) = false.
Proof.
  unfold matches_ext.
  destruct (a ++ String "." b)%string as [| c' rest] eqn:E; [reflexivity |].
  rewrite <- E, all_chars_ext_app_dot. apply andb_false_r.
Qed.

Lemma matches_ext_dotless (s : string) :
  has_dot s = false -> matches_ext s = false.
Proof.
  destruct s as [| c [| c' rest]]; try reflexivity.
  cbn [has_dot matches_ext]. intros H.
  apply orb_false_iff in H as [Hc _]. rewrite Hc. reflexivity.
Qed.

Lemma remove_ext_dotless (s : string) :
  has_dot s = false -> remove_ext s = s.
Proof.
  induction s as [| c s IH]; [reflexivity |]. intros H.
  cbn [remove_ext]. rewrite (matches_ext_dotless _ H).
  cbn [has_dot] in H. apply orb_false_iff in H as [_ Hs].
  rewrite (IH Hs). reflexivity.
Qed.

Lemma remove_ext_app (base ext : string) :
  ext <> EmptyString -> all_chars ext_char ext = true ->
  remove_ext (base ++ String "." ext) = base.
Proof.
  intros Hne Hall. induction base as [| c base IH].
  - cbn [append remove_ext]. rewrite matches_ext_dot by assumption.
    reflexivity.
  - cbn [append remove_ext]. rewrite matches_ext_before_dot, IH.
    reflexivity.
Qed.

(** A name with a dot is a base, a dot and the last segment. *)
Lemma has_dot_decompose (s : string) :
  has_dot s = true ->
  exists base, s = (base ++ String "." (pop (split "." s)))%string.
Proof.
  induction s as [| c s IH]; [discriminate |].
  cbn [has_dot]. intros H.
  destruct (has_dot s) eqn:Hs.
  - destruct (IH eq_refl) as [base Hbase].
    exists (String c base).
    assert (E : pop (split "." (String c s)) = pop (split "." s)).
    { rewrite Hbase at 1.
      change (String c (base ++ String "." (pop (split "." s))))
        with (String c base ++ String "." (pop (split "." s)))%string.
      rewrite pop_split_app, split_no_dot by apply pop_dotless.
      reflexivity. }
    rewrite E. cbn [append]. rewrite <- Hbase. reflexivity.
  - rewrite orb_false_r in H. apply Ascii.eqb_eq in H. subst c.
    exists EmptyString. cbn [split append]. rewrite Ascii.eqb_refl.
    rewrite split_no_dot by assumption. reflexivity.
Qed.

(** X8.  [showDownloadSection] names the download after the file: for a
    name [base.ext] whose [ext] is not empty and has no dot and no slash,
    the download is [base.pdf]; a name without a dot keeps all of it, and
    so does a name that ends in a dot. *)
Theorem download_name_replaces_extension (base ext : string) :
  ext <> EmptyString ->
  all_chars ext_char ext = true ->
  download_name (mkFile (base ++ String "." ext)) = (base ++ ".pdf")%string /\
  download_name (mkFile ext) = (ext ++ ".pdf")%string /\
  download_name (mkFile (ext ++ ".")) = (ext ++ "." ++ ".pdf")%string.
Proof.
  intros Hne Hall. unfold download_name. cbn [file_name].
  pose proof (all_chars_ext_dotless _ Hall) as Hdot.
  rewrite remove_ext_app by assumption.
  rewrite (remove_ext_dotless ext) by assumption.
  split; [reflexivity |]. split; [reflexivity |].
  assert (E : remove_ext (ext ++ ".") = (ext ++ ".")%string).
  { clear Hne. induction ext as [| c ext IH]; [reflexivity |].
    cbn [all_chars] in Hall. apply andb_true_iff in Hall as [Hc Hall].
    cbn [has_dot] in Hdot. apply orb_false_iff in Hdot as [Hcd Hdot].
    cbn [append remove_ext].
    replace (matches_ext (String c (ext ++ "."))) with false.
    - rewrite (IH Hall Hdot). reflexivity.
    - unfold matches_ext. rewrite Hcd.
      destruct (ext ++ ".")%string; reflexivity. }
  rewrite E. rewrite string_app_assoc. reflexivity.
Qed.

Lemma download_name_replaces_extension_witness :
  download_name (mkFile ("my.notes" ++ String "." "txt"))
  = ("my.notes" ++ ".pdf")%string /\
  download_name (mkFile "txt") = ("txt" ++ ".pdf")%string /\
  download_name (mkFile ("txt" ++ ".")) = ("txt" ++ "." ++ ".pdf")%string.
Proof.
  apply (download_name_replaces_extension "my.notes" "txt").
  - discriminate.
  - reflexivity.
Defined.

Lemma accepted_ext_chars (ext : string) :
  In (String "." (toLowerCase ext)) ACCEPTED_EXTENSIONS ->
  ext <> EmptyString /\ all_chars ext_char ext = true.
Proof.
  intros H.
  assert (Hall : all_chars ext_char (toLowerCase ext) = true).
  { apply accepted_cases in H.
    destruct H as [H | [H | [H | [H | [H | H]]]]];
      injection H as ->; reflexivity. }
  split.
  - intros ->. apply accepted_cases in H.
    destruct H as [H | [H | [H | [H | [H | H]]]]]; discriminate H.
  - clear H. induction ext as [| c ext IH]; [reflexivity |].
    cbn [toLowerCase map_string all_chars] in Hall |- *.
    apply andb_true_iff in Hall as [Hc Hall].
    rewrite lower_char_ext in Hc. rewrite Hc. apply IH. exact Hall.
Qed.

(** X9.  For every file that [isValidFile] accepts, the download name is
    the file name with its extension replaced by [.pdf] when the name has
    a dot, and the whole name followed by [.pdf] when it has none. *)
Theorem download_name_of_valid_file (file : File) :
  isValidFile file = true ->
  exists ext,
    getExtension file = String "." (toLowerCase ext) /\
    ((has_dot (file_name file) = false /\
      file_name file = ext /\
      download_name file = (ext ++ ".pdf")%string) \/
     (exists base,
        file_name file = (base ++ String "." ext)%string /\
        download_name file = (base ++ ".pdf")%string)).
Proof.
  intros Hvalid. exists (pop (split "." (file_name file))).
  split; [reflexivity |].
  destruct (has_dot (file_name file)) eqn:Hdot.
  - right. destruct (has_dot_decompose _ Hdot) as [base Hbase].
    exists base. split; [exact Hbase |].
    apply isValidFile_inv in Hvalid. unfold getExtension in Hvalid.
    apply accepted_ext_chars in Hvalid as [Hne Hall].
    unfold download_name. rewrite Hbase at 1.
    rewrite remove_ext_app by assumption. reflexivity.
  - left. rewrite split_no_dot by assumption.
    split; [reflexivity |]. split; [reflexivity |].
    unfold download_name. rewrite remove_ext_dotless by assumption.
    reflexivity.
Qed.

Lemma download_name_of_valid_file_witness :
  exists ext,
    getExtension (mkFile "Q3.Report.DOCX") = String "." (toLowerCase ext) /\
    ((has_dot "Q3.Report.DOCX" = false /\
      "Q3.Report.DOCX"%string = ext /\
      download_name (mkFile "Q3.Report.DOCX") = (ext ++ ".pdf")%string) \/
     (exists base,
        "Q3.Report.DOCX"%string = (base ++ String "." ext)%string /\
        download_name (mkFile "Q3.Report.DOCX") = (base ++ ".pdf")%string)).
Proof.
  apply (download_name_of_valid_file (mkFile "Q3.Report.DOCX")).
  reflexivity.
Defined.

End DownloadName.

(* ================================================================== *)
(** ** More on [convertImage]: where the image lands                   *)
(* ================================================================== *)

Section ImagePlacement.
Import ConvertImage.

Lemma Qhalf (x : Q) : x / 2 == x * (1#2).
Proof. field. Qed.

Lemma Math_min3_cases (x y : Q) :
  (Math_min3 x y 1 = x /\ x <= y /\ x <= 1) \/
  (Math_min3 x y 1 = y /\ y <= x /\ y <= 1) \/
  (Math_min3 x y 1 = 1 /\ 1 <= x /\ 1 <= y).
Proof.
  unfold Math_min3, Math_min.
  destruct (Qlt_le_dec y x); destruct (Qlt_le_dec 1 _); intuition lra.
Qed.

(** What [onload] draws for an image of positive width and height. *)
Lemma onload_draws
  (pageWidth pageHeight : Q) (file : File) (img : Image) :
  (0 < naturalWidth img)%N ->
  (0 < naturalHeight img)%N ->
  let imgW := of_uint (naturalWidth img) in
  let imgH := of_uint (naturalHeight img) in
  let scale :=
    Math_min3 (maxW pageWidth / imgW) (maxH pageHeight / imgH) 1 in
  paginate pageWidth pageHeight file (Some img)
  = Normal [AddImage FileDataURL (format_of file)
              (margin + (maxW pageWidth - imgW * scale) / 2)
              (margin + (maxH pageHeight - imgH * scale) / 2)
              (imgW * scale) (imgH * scale)].
Proof.
  intros Hw Hh imgW imgH scale.
  pose proof (of_uint_pos _ Hw) as HW. pose proof (of_uint_pos _ Hh) as HH.
  fold imgW in HW. fold imgH in HH.
  cbn [paginate]. unfold onload, js_div. fold imgW imgH.
  destruct (Qeq_dec imgW 0) as [E | _]; [lra |].
  destruct (Qeq_dec imgH 0) as [E | _]; [lra |].
  reflexivity.
Qed.

Section Geometry.
Variables imgW imgH usableW usableH : Q.
Hypothesis imgW_positive : 0 < imgW.
Hypothesis imgH_positive : 0 < imgH.

Local Abbreviation fitW := (usableW / imgW).
Local Abbreviation fitH := (usableH / imgH).
Local Abbreviation scale := (Math_min3 fitW fitH 1).

Lemma fitW_spec : imgW * fitW == usableW.
Proof. field. lra. Qed.

Lemma fitH_spec : imgH * fitH == usableH.
Proof. field. lra. Qed.

Lemma scaled_width_fits : imgW * scale <= usableW.
Proof.
  pose proof fitW_spec.
  assert (scale <= fitW).
  { destruct (Math_min3_cases fitW fitH) as [[-> ?] | [[-> ?] | [-> ?]]];
      lra. }
  nra.
Qed.

Lemma scaled_height_fits : imgH * scale <= usableH.
Proof.
  pose proof fitH_spec.
  assert (scale <= fitH).
  { destruct (Math_min3_cases fitW fitH) as [[-> ?] | [[-> ?] | [-> ?]]];
      lra. }
  nra.
Qed.

(** The scale is the largest one allowed: the image is drawn at its own
    size when that fits, and otherwise it fills the usable width or the
    usable height. *)
Lemma scale_is_tight :
  (imgW <= usableW -> imgH <= usableH ->
   imgW * scale == imgW /\ imgH * scale == imgH) /\
  (imgW * scale == imgW \/
   imgW * scale == usableW \/ imgH * scale == usableH).
Proof.
  pose proof fitW_spec. pose proof fitH_spec.
  destruct (Math_min3_cases fitW fitH) as [[-> ?] | [[-> ?] | [-> ?]]].
  - split; [| right; left; assumption].
    intros Hfw Hfh. assert (fitW == 1) by nra.
    split; nra.
  - split; [| right; right; assumption].
    intros Hfw Hfh. assert (fitH == 1) by nra.
    split; nra.
  - split; [intros; split; ring | left; ring].
Qed.
End Geometry.

(** X10.  The image [convertImage] draws stays inside the margins: it is
    no wider and no taller than the usable area, its left and top edges
    are at or beyond the margin, and its right and bottom edges are at or
    before the opposite margin; the space left over is the same on both
    sides. *)
Theorem image_stays_inside_margins
  (pageWidth pageHeight : Q) (file : File) (img : Image) :
  (0 < naturalWidth img)%N ->
  (0 < naturalHeight img)%N ->
  exists fmt x y w h,
    paginate pageWidth pageHeight file (Some img)
    = Normal [AddImage FileDataURL fmt x y w h] /\
    w <= maxW pageWidth /\ h <= maxH pageHeight /\
    margin <= x /\ x + w <= pageWidth - margin /\
    margin <= y /\ y + h <= pageHeight - margin /\
    x - margin == (pageWidth - margin) - (x + w) /\
    y - margin == (pageHeight - margin) - (y + h).
Proof.
  intros Hw Hh. do 5 eexists.
  split; [apply onload_draws; assumption |].
  pose proof (of_uint_pos _ Hw) as HW. pose proof (of_uint_pos _ Hh) as HH.
  pose proof (scaled_width_fits _ (of_uint (naturalHeight img))
                (maxW pageWidth) (maxH pageHeight) HW) as Hfw.
  pose proof (scaled_height_fits (of_uint (naturalWidth img)) _
                (maxW pageWidth) (maxH pageHeight) HH) as Hfh.
  set (w := of_uint (naturalWidth img) * _) in *.
  set (h := of_uint (naturalHeight img) * _) in *.
  clearbody w h. unfold maxW, maxH, margin in *.
  rewrite !Qhalf. repeat split; lra.
Qed.

Lemma image_stays_inside_margins_witness :
  exists fmt x y w h,
    convertImage (mkFile "wide.png") (Some (mkImage 4000 1000))
    = Normal [AddImage FileDataURL fmt x y w h] /\
    w <= maxW a4_width /\ h <= maxH a4_height /\
    margin <= x /\ x + w <= a4_width - margin /\
    margin <= y /\ y + h <= a4_height - margin /\
    x - margin == (a4_width - margin) - (x + w) /\
    y - margin == (a4_height - margin) - (y + h).
Proof.
  apply (image_stays_inside_margins a4_width a4_height
           (mkFile "wide.png") (mkImage 4000 1000)); reflexivity.
Defined.

(** X11.  [convertImage] scales both sides of the image by the same
    factor, so the proportions of the image are kept; an image that fits
    the usable area is drawn at its own size, and any other image is
    scaled until it fills the usable width or the usable height. *)
Theorem image_keeps_proportions_and_fills
  (pageWidth pageHeight : Q) (file : File) (img : Image) :
  (0 < naturalWidth img)%N ->
  (0 < naturalHeight img)%N ->
  let imgW := of_uint (naturalWidth img) in
  let imgH := of_uint (naturalHeight img) in
  exists fmt x y w h,
    paginate pageWidth pageHeight file (Some img)
    = Normal [AddImage FileDataURL fmt x y w h] /\
    w * imgH == h * imgW /\
    (imgW <= maxW pageWidth -> imgH <= maxH pageHeight ->
     w == imgW /\ h == imgH) /\
    (w == imgW \/ w == maxW pageWidth \/ h == maxH pageHeight).
Proof.
  intros Hw Hh imgW imgH. do 5 eexists.
  split; [apply onload_draws; assumption |].
  split; [fold imgW imgH; ring |].
  apply scale_is_tight; apply of_uint_pos; assumption.
Qed.

Lemma image_keeps_proportions_and_fills_witness :
  exists fmt x y w h,
    convertImage (mkFile "tall.jpg") (Some (mkImage 600 3000))
    = Normal [AddImage FileDataURL fmt x y w h] /\
    w * of_uint 3000 == h * of_uint 600 /\
    (of_uint 600 <= maxW a4_width -> of_uint 3000 <= maxH a4_height ->
     w == of_uint 600 /\ h == of_uint 3000) /\
    (w == of_uint 600 \/ w == maxW a4_width \/ h == maxH a4_height).
Proof.
  apply (image_keeps_proportions_and_fills a4_width a4_height
           (mkFile "tall.jpg") (mkImage 600 3000)); reflexivity.
Defined.

End ImagePlacement.

(* ================================================================== *)
(** ** More on [htmlStringToPdf]: the shape of the slices              *)
(* ================================================================== *)

Module SliceShape.
Import HtmlStringToPdf SliceLoop.

Lemma Math_round_lower (x : Q) : x - (1#2) < inject_Z (Math_round x).
Proof.
  unfold Math_round. pose proof (Qlt_floor (x + (1#2))) as H.
  rewrite inject_Z_plus in H. change (inject_Z 1) with 1 in H. lra.
Qed.

Section Shape.
Variables pageWidth pageHeight : Q.
Variable canvas : Canvas.
Variable ratio : Q.

Local Abbreviation loop := (slice_loop pageWidth pageHeight canvas ratio).

(** The heights of the slices: full pages, then what is left. *)
Lemma loop_heights (fuel : nat) (r s : Q) (ds : list directive) :
  loop fuel r s = Normal ds ->
  (r <= 0 -> slices_of ds = []) /\
  (0 < r ->
   exists n last_h,
     map slice_h (slices_of ds) = repeat pageHeight n ++ [last_h] /\
     0 < last_h /\ last_h <= pageHeight /\
     last_h == r - inject_Z (Z.of_nat n) * pageHeight).
Proof.
  revert fuel r s ds.
  apply (loop_ind pageWidth pageHeight canvas ratio (fun r _ ds =>
    (r <= 0 -> slices_of ds = []) /\
    (0 < r ->
     exists n last_h,
       map slice_h (slices_of ds) = repeat pageHeight n ++ [last_h] /\
       0 < last_h /\ last_h <= pageHeight /\
       last_h == r - inject_Z (Z.of_nat n) * pageHeight))).
  - intros r s Hr. split; [reflexivity | lra].
  - intros r s ds Hr _ [IH0 IH1]. split; [lra |]. intros _.
    rewrite slices_of_emit. cbn [map slice_h slice_at].
    destruct (Qlt_le_dec pageHeight r) as [Hbig | Hsmall].
    + rewrite (Math_min_big _ _ Hbig) in *.
      destruct IH1 as [n [last_h [E [Hpos [Hle Heq]]]]]; [lra |].
      exists (S n), last_h. rewrite E. split; [reflexivity |].
      split; [assumption |]. split; [assumption |].
      rewrite inject_nat_succ. rewrite Heq. ring.
    + rewrite (Math_min_small _ _ Hsmall) in *.
      rewrite IH0 by lra. exists O, r.
      split; [reflexivity |]. split; [assumption |]. split; [assumption |].
      change (inject_Z (Z.of_nat 0)) with 0. ring.
Qed.

(** Every slice is put at the top left corner and is as wide as the
    page. *)
Lemma loop_placement (fuel : nat) (r s : Q) (ds : list directive) :
  loop fuel r s = Normal ds ->
  Forall (fun sl => slice_x sl = 0 /\ slice_y sl = 0 /\
                    slice_w sl == pageWidth)
    (slices_of ds).
Proof.
  revert fuel r s ds.
  apply (loop_ind pageWidth pageHeight canvas ratio (fun _ _ ds =>
    Forall (fun sl => slice_x sl = 0 /\ slice_y sl = 0 /\
                      slice_w sl == pageWidth)
      (slices_of ds))).
  - intros. constructor.
  - intros r s ds Hr _ IH. rewrite slices_of_emit. constructor; [| exact IH].
    cbn [slice_x slice_y slice_w slice_at].
    split; [reflexivity |]. split; [reflexivity |].
    unfold imgW, margin. ring.
Qed.

(** Where slice [i] starts in the canvas, and how many rows a slice that
    is not the last one is given. *)
Lemma loop_offsets (fuel : nat) (r s : Q) (ds : list directive) :
  loop fuel r s = Normal ds ->
  (r <= 0 -> slices_of ds = []) /\
  (forall i sl,
     nth_error (slices_of ds) i = Some sl ->
     slice_srcY sl == (s + inject_Z (Z.of_nat i) * pageHeight) * ratio /\
     (nth_error (slices_of ds) (S i) <> None ->
      slice_rows sl = Math_round (pageHeight * ratio))).
Proof.
  revert fuel r s ds.
  apply (loop_ind pageWidth pageHeight canvas ratio (fun r s ds =>
    (r <= 0 -> slices_of ds = []) /\
    (forall i sl,
       nth_error (slices_of ds) i = Some sl ->
       slice_srcY sl == (s + inject_Z (Z.of_nat i) * pageHeight) * ratio /\
       (nth_error (slices_of ds) (S i) <> None ->
        slice_rows sl = Math_round (pageHeight * ratio))))).
  - intros r s Hr. split; [reflexivity |]. intros [| i] sl; discriminate.
  - intros r s ds Hr _ [IH0 IH1]. split; [lra |].
    rewrite slices_of_emit.
    assert (Hmore : slices_of ds <> [] -> pageHeight < r).
    { intros Hne. destruct (Qlt_le_dec pageHeight r) as [Hbig | Hsmall];
        [assumption |].
      exfalso. apply Hne. apply IH0.
      rewrite (Math_min_small _ _ Hsmall). lra. }
    intros [| i] sl Hnth; cbn [nth_error] in Hnth.
    + injection Hnth as <-. split.
      * cbn [slice_srcY slice_at slice_data].
        change (inject_Z (Z.of_nat 0)) with 0. ring.
      * cbn [nth_error]. intros Hnext.
        assert (Hne : slices_of ds <> []).
        { intros E. rewrite E in Hnext. apply Hnext. reflexivity. }
        cbn [slice_rows slice_at slice_data].
        rewrite (Math_min_big _ _ (Hmore Hne)). reflexivity.
    + assert (Hne : slices_of ds <> []).
      { intros E. rewrite E in Hnth. destruct i; discriminate. }
      rewrite (Math_min_big _ _ (Hmore Hne)) in IH1.
      destruct (IH1 i sl Hnth) as [Hoff Hrows]. split.
      * rewrite Hoff, inject_nat_succ. ring.
      * exact Hrows.
Qed.
End Shape.
End SliceShape.

Section SliceShapeProperties.
Import HtmlStringToPdf SliceLoop SliceShape.

(** X12.  For a canvas of positive width that fills [k] pages and ends on
    the next one clear of the page ends, the image paginator returns a
    document of [k + 1] slices: [k] slices exactly [pageHeight] tall,
    then one last slice that is what is left of the image, more than
    zero and at most [pageHeight] tall; every slice is put at the top
    left corner of its page and is as wide as the page. *)
Theorem paginate_full_pages_then_rest
  (pageWidth pageHeight : Q) (canvas : Canvas) (k : nat) :
  0 < pageWidth ->
  (0 < canvas_width canvas)%N ->
  clear_of_page_ends pageWidth pageHeight canvas k = true ->
  exists ds last_h,
    (exists fuel, paginate pageWidth pageHeight canvas fuel = Normal ds) /\
    map slice_h (slices_of ds) = repeat pageHeight k ++ [last_h] /\
    0 < last_h /\ last_h <= pageHeight /\
    last_h == imgH_of pageWidth canvas - inject_Z (Z.of_nat k) * pageHeight /\
    Forall (fun sl => slice_x sl = 0 /\ slice_y sl = 0 /\
                      slice_w sl == pageWidth)
      (slices_of ds).
Proof.
  intros Hw Hcw Hclear.
  destruct (paginate_clear pageWidth pageHeight canvas Hw Hcw k Hclear)
    as [ds [Hrun Hlen]].
  pose proof Hrun as Hloop.
  rewrite paginate_loop in Hloop by assumption.
  assert (HH : 0 < imgH_of pageWidth canvas).
  { destruct (Qlt_le_dec 0 (imgH_of pageWidth canvas)) as [H | H];
      [assumption |].
    rewrite loop_done in Hloop by assumption.
    injection Hloop as <-. discriminate Hlen. }
  destruct (loop_heights _ _ _ _ _ _ _ _ Hloop) as [_ Hshape].
  destruct (Hshape HH) as [n [last_h [E [Hpos [Hle Heq]]]]].
  assert (Hn : n = k).
  { apply (f_equal (@List.length Q)) in E.
    rewrite length_map, Hlen, length_app, repeat_length in E.
    cbn [List.length] in E. lia. }
  subst n.
  exists ds, last_h. split; [exists (S k); exact Hrun |].
  repeat (split; [assumption |]).
  apply (loop_placement _ _ _ _ _ _ _ _ Hloop).
Qed.

Lemma paginate_full_pages_then_rest_witness :
  exists ds last_h,
    (exists fuel, htmlStringToPdf (mkCanvas 1191 3000) fuel = Normal ds) /\
    map slice_h (slices_of ds) = repeat a4_height 1 ++ [last_h] /\
    0 < last_h /\ last_h <= a4_height /\
    last_h == imgH_of a4_width (mkCanvas 1191 3000)
              - inject_Z (Z.of_nat 1) * a4_height /\
    Forall (fun sl => slice_x sl = 0 /\ slice_y sl = 0 /\
                      slice_w sl == a4_width)
      (slices_of ds).
Proof.
  apply (paginate_full_pages_then_rest a4_width a4_height
           (mkCanvas 1191 3000) 1); reflexivity.
Defined.

(** X13.  For a canvas of positive width that fills [k] pages and ends on
    the next one clear of the page ends, slice number [i] of the
    [k + 1] slices the image paginator returns, counted from 0, starts at
    canvas row [i * pageHeight * ratio]: the start of a slice does not
    depend on the rounding of the slices before it. *)
Theorem paginate_slice_offsets
  (pageWidth pageHeight : Q) (canvas : Canvas) (k : nat) :
  0 < pageWidth ->
  (0 < canvas_width canvas)%N ->
  clear_of_page_ends pageWidth pageHeight canvas k = true ->
  exists ds,
    (exists fuel, paginate pageWidth pageHeight canvas fuel = Normal ds) /\
    List.length (slices_of ds) = S k /\
    forall i sl,
      nth_error (slices_of ds) i = Some sl ->
      slice_srcY sl
      == inject_Z (Z.of_nat i) * pageHeight * ratio_of pageWidth canvas.
Proof.
  intros Hw Hcw Hclear.
  destruct (paginate_clear pageWidth pageHeight canvas Hw Hcw k Hclear)
    as [ds [Hrun Hlen]].
  exists ds. split; [exists (S k); exact Hrun |]. split; [exact Hlen |].
  rewrite paginate_loop in Hrun by assumption.
  destruct (loop_offsets _ _ _ _ _ _ _ _ Hrun) as [_ Hoff].
  intros i sl Hnth. destruct (Hoff i sl Hnth) as [E _].
  rewrite E. ring.
Qed.

Lemma paginate_slice_offsets_witness :
  exists ds,
    (exists fuel, htmlStringToPdf (mkCanvas 1191 3000) fuel = Normal ds) /\
    List.length (slices_of ds) = 2%nat /\
    forall i sl,
      nth_error (slices_of ds) i = Some sl ->
      slice_srcY sl
      == inject_Z (Z.of_nat i) * a4_height
         * ratio_of a4_width (mkCanvas 1191 3000).
Proof.
  apply (paginate_slice_offsets a4_width a4_height (mkCanvas 1191 3000) 1);
    reflexivity.
Defined.

(** X14.  For a canvas of positive width that fills [k + 1] pages and
    ends on the next one clear of the page ends, the image paginator
    returns [k + 2] slices, and where one slice ends and the next begins
    it loses or repeats at most half a pixel row: a slice that has a
    successor is given the height of a page in rows, rounded, which is at
    most half a row more or less, and the next slice starts at most half
    a row before and at most half a row after the end of those rows. *)
Theorem paginate_slice_seams
  (pageWidth pageHeight : Q) (canvas : Canvas) (k : nat) :
  0 < pageWidth ->
  (0 < canvas_width canvas)%N ->
  clear_of_page_ends pageWidth pageHeight canvas (S k) = true ->
  exists ds,
    (exists fuel, paginate pageWidth pageHeight canvas fuel = Normal ds) /\
    List.length (slices_of ds) = S (S k) /\
    forall i sl sl',
      nth_error (slices_of ds) i = Some sl ->
      nth_error (slices_of ds) (S i) = Some sl' ->
      page_rows pageWidth pageHeight canvas - (1#2)
      <= inject_Z (slice_rows sl) /\
      inject_Z (slice_rows sl)
      <= page_rows pageWidth pageHeight canvas + (1#2) /\
      - (1#2) <= slice_srcY sl' - (slice_srcY sl + inject_Z (slice_rows sl)) /\
      slice_srcY sl' - (slice_srcY sl + inject_Z (slice_rows sl)) <= 1#2.
Proof.
  intros Hw Hcw Hclear.
  destruct (paginate_clear pageWidth pageHeight canvas Hw Hcw (S k) Hclear)
    as [ds [Hrun Hlen]].
  exists ds. split; [exists (S (S k)); exact Hrun |]. split; [exact Hlen |].
  rewrite paginate_loop in Hrun by assumption.
  destruct (loop_offsets _ _ _ _ _ _ _ _ Hrun) as [_ Hoff].
  intros i sl sl' Hi Hi'.
  destruct (Hoff i sl Hi) as [E Hrows].
  destruct (Hoff (S i) sl' Hi') as [E' _].
  rewrite Hrows by (rewrite Hi'; discriminate).
  rewrite E, E', inject_nat_succ. unfold page_rows.
  pose proof (Math_round_upper (pageHeight * ratio_of pageWidth canvas)).
  pose proof (Math_round_lower (pageHeight * ratio_of pageWidth canvas)).
  repeat split; nra.
Qed.

Lemma paginate_slice_seams_witness :
  exists ds,
    (exists fuel, htmlStringToPdf (mkCanvas 1191 4000) fuel = Normal ds) /\
    List.length (slices_of ds) = 3%nat /\
    forall i sl sl',
      nth_error (slices_of ds) i = Some sl ->
      nth_error (slices_of ds) (S i) = Some sl' ->
      page_rows a4_width a4_height (mkCanvas 1191 4000) - (1#2)
      <= inject_Z (slice_rows sl) /\
      inject_Z (slice_rows sl)
      <= page_rows a4_width a4_height (mkCanvas 1191 4000) + (1#2) /\
      - (1#2) <= slice_srcY sl' - (slice_srcY sl + inject_Z (slice_rows sl)) /\
      slice_srcY sl' - (slice_srcY sl + inject_Z (slice_rows sl)) <= 1#2.
Proof.
  apply (paginate_slice_seams a4_width a4_height (mkCanvas 1191 4000) 1);
    reflexivity.
Defined.

End SliceShapeProperties.

(* ================================================================== *)
(** ** More on [convertTxt]: lines per page, progress                  *)
(* ================================================================== *)

Module TextCapacity.
Import ConvertTxt TextLoop.

Lemma length_lines_baselines (p : page) :
  List.length (lines_of p) = List.length (baselines p).
Proof.
  induction p as [| d p IH]; [reflexivity |].
  destruct d; simpl; rewrite ?IH; reflexivity.
Qed.

Lemma inject_nat_le (a b : nat) :
  (a <= b)%nat -> inject_Z (Z.of_nat a) <= inject_Z (Z.of_nat b).
Proof. intros H. rewrite <- Zle_Qle. lia. Qed.

Section Capacity.
Variable pageHeight : Q.

Lemma fits_antitone (y y' : Q) :
  y <= y' -> fits pageHeight y' -> fits pageHeight y.
Proof. unfold fits. intros. lra. Qed.

(** On a page whose baselines go down in steps from [y] and all fit, the
    last one is [y + k * lineHeight] for a page of [k + 1] lines. *)
Lemma stepped_last_fits (ys : list Q) :
  forall y k,
    stepped_from y ys -> Forall (fits pageHeight) ys ->
    List.length ys = S k ->
    fits pageHeight (y + inject_Z (Z.of_nat k) * lineHeight).
Proof.
  induction ys as [| y0 ys IH]; intros y k Hstep Hfit Hlen; [discriminate |].
  cbn [stepped_from] in Hstep. destruct Hstep as [E Hstep].
  inversion Hfit as [| ? ? Hy0 Hrest]; subst.
  destruct k as [| k].
  - eapply fits_morphism; [| exact Hy0].
    rewrite E. change (inject_Z (Z.of_nat 0)) with 0. ring.
  - cbn [List.length] in Hlen. injection Hlen as Hlen.
    eapply fits_morphism; [| exact (IH _ _ Hstep Hrest Hlen)].
    rewrite inject_nat_succ. ring.
Qed.

Variable c : nat.
Hypothesis c_fits :
  fits pageHeight
    (firstBaseline + inject_Z (Z.of_nat (pred c)) * lineHeight).
Hypothesis c_full :
  ~ fits pageHeight (firstBaseline + inject_Z (Z.of_nat c) * lineHeight).

Lemma lineHeight_pos : 0 < lineHeight.
Proof. reflexivity. Qed.

Lemma page_at_most_c (p : page) :
  stepped_from firstBaseline (baselines p) ->
  Forall (fits pageHeight) (baselines p) ->
  (List.length (baselines p) <= c)%nat.
Proof.
  intros Hstep Hfit.
  destruct (List.length (baselines p)) as [| k] eqn:Hlen; [lia |].
  destruct (Nat.le_gt_cases (S k) c) as [Hle | Hgt]; [assumption |].
  exfalso. apply c_full.
  apply fits_antitone
    with (y' := firstBaseline + inject_Z (Z.of_nat k) * lineHeight).
  - assert (inject_Z (Z.of_nat c) <= inject_Z (Z.of_nat k))
      by (apply inject_nat_le; lia).
    pose proof lineHeight_pos. nra.
  - apply stepped_last_fits with (ys := baselines p); assumption.
Qed.

Lemma page_at_least_c (p : page) :
  ~ fits pageHeight (firstBaseline + line_count p * lineHeight) ->
  (c <= List.length (baselines p))%nat.
Proof.
  intros Hfull.
  destruct (Nat.le_gt_cases c (List.length (baselines p))) as [Hle | Hgt];
    [assumption |].
  exfalso. apply Hfull. eapply fits_antitone; [| exact c_fits].
  unfold line_count.
  assert (inject_Z (Z.of_nat (List.length (baselines p)))
          <= inject_Z (Z.of_nat (pred c))) by (apply inject_nat_le; lia).
  pose proof lineHeight_pos. nra.
Qed.

(** From the shape of the pages to their sizes. *)
Lemma full_pages (pages : list page) :
  Forall (fun p => stepped_from firstBaseline (baselines p)) pages ->
  Forall (fun p => Forall (fits pageHeight) (baselines p)) pages ->
  breaks_when_full pageHeight firstBaseline pages ->
  Forall (fun p => (List.length (lines_of p) <= c)%nat) pages /\
  all_but_last (fun p => List.length (lines_of p) = c) pages.
Proof.
  induction pages as [| p pages IH]; intros Hstep Hfit Hfull.
  - split; constructor.
  - inversion Hstep as [| ? ? Hp Hps]; subst.
    inversion Hfit as [| ? ? Hfp Hfps]; subst.
    cbn [breaks_when_full] in Hfull. destruct Hfull as [Hleave Hrest].
    destruct (IH Hps Hfps Hrest) as [IHle IHfull].
    pose proof (page_at_most_c p Hp Hfp) as Hle.
    split.
    + constructor; [rewrite length_lines_baselines; exact Hle | exact IHle].
    + cbn [all_but_last]. destruct pages as [| q pages]; [exact I |].
      split; [| exact IHfull].
      rewrite length_lines_baselines.
      assert (c <= List.length (baselines p))%nat
        by (apply page_at_least_c; apply Hleave; discriminate).
      lia.
Qed.
End Capacity.

(** The pages after the first are never empty. *)
Lemma later_pages_nonempty (pageHeight : Q) (lines : list string) :
  forall y p ps,
    pages_of (place_lines pageHeight lines y) = p :: ps ->
    Forall (fun q => lines_of q <> []) ps.
Proof.
  induction lines as [| line rest IH]; intros y p ps E.
  - injection E as <- <-. constructor.
  - destruct (Qlt_le_dec (pageHeight - margin) (y + lineHeight)) as [Hb | Hs].
    + destruct (pages_of_place_break pageHeight line rest y Hb)
        as [p' [ps' [E1 E2]]].
      rewrite E2 in E. injection E as <- <-.
      constructor; [discriminate |]. exact (IH _ _ _ E1).
    + destruct (pages_of_place_same_page pageHeight line rest y Hs)
        as [p' [ps' [E1 E2]]].
      rewrite E2 in E. injection E as <- <-. exact (IH _ _ _ E1).
Qed.

(** The first page has a line as soon as there is one and it fits. *)
Lemma first_page_nonempty (pageHeight : Q) (line : string)
  (rest : list string) (y : Q) (p : page) (ps : list page) :
  fits pageHeight y ->
  pages_of (place_lines pageHeight (line :: rest) y) = p :: ps ->
  lines_of p <> [].
Proof.
  intros Hfit E.
  destruct (pages_of_place_same_page pageHeight line rest y Hfit)
    as [p' [ps' [_ E2]]].
  rewrite E2 in E. injection E as <- <-. discriminate.
Qed.

Lemma length_concat_sum {A : Type} (ls : list (list A)) :
  List.length (concat ls) = list_sum (map (@List.length A) ls).
Proof.
  induction ls as [| l ls IH]; [reflexivity |].
  cbn [concat map list_sum]. rewrite length_app, IH. reflexivity.
Qed.

(** Pages that are full but for the last, which is not empty, hold
    [n] lines with [(pages - 1) * c < n <= pages * c]. *)
Lemma sizes_count (c : nat) (sizes : list nat) :
  sizes <> [] ->
  Forall (fun s => (1 <= s <= c)%nat) sizes ->
  all_but_last (fun s => s = c) sizes ->
  ((List.length sizes - 1) * c < list_sum sizes
   /\ list_sum sizes <= List.length sizes * c)%nat.
Proof.
  induction sizes as [| s sizes IH]; [congruence |]. intros _ Hall Hfull.
  inversion Hall as [| ? ? Hs Hrest]; subst.
  destruct sizes as [| s' sizes].
  - cbn. lia.
  - cbn [all_but_last] in Hfull. destruct Hfull as [-> Hfull].
    destruct (IH ltac:(discriminate) Hrest Hfull) as [Hlo Hhi].
    cbn [List.length list_sum] in *.
    replace (S (S (List.length sizes)) - 1)%nat
      with (S (List.length sizes)) by lia.
    replace (S (List.length sizes) - 1)%nat
      with (List.length sizes) in Hlo by lia.
    change (list_sum (c :: s' :: sizes))
      with (c + list_sum (s' :: sizes))%nat.
    rewrite !Nat.mul_succ_l in *. lia.
Qed.

Lemma all_but_last_map {A B : Type} (f : A -> B) (P : B -> Prop)
  (l : list A) :
  all_but_last (fun x => P (f x)) l -> all_but_last P (map f l).
Proof.
  induction l as [| x l IH]; [exact (fun H => H) |].
  destruct l as [| y l]; [exact (fun H => H) |].
  cbn [all_but_last map] in *. intros [Hx Hrest]. split; [exact Hx |].
  apply IH. exact Hrest.
Qed.
End TextCapacity.

Section TextCapacityProperties.
Import ConvertTxt TextLoop TextCapacity.

(** X15.  When [c] lines fit on a page and [c + 1] do not, the text
    paginator puts at most [c] lines on a page and exactly [c] on every
    page but the last; so [n > 0] lines take [ceil (n / c)] pages (the
    number [m] of pages satisfies [(m - 1) * c < n <= m * c]) and no
    lines take one empty page.  On the A4 page [c] is 48. *)
Theorem text_pages_hold_c_lines
  (pageWidth pageHeight : Q) (splitTextToSize : string -> Q -> list string)
  (text : string) (c : nat) :
  (1 <= c)%nat ->
  fits pageHeight (firstBaseline + inject_Z (Z.of_nat (pred c)) * lineHeight) ->
  ~ fits pageHeight (firstBaseline + inject_Z (Z.of_nat c) * lineHeight) ->
  let pages :=
    pages_of (paginate pageWidth pageHeight splitTextToSize text) in
  let n := List.length (splitTextToSize text (maxWidth pageWidth)) in
  Forall (fun p => (List.length (lines_of p) <= c)%nat) pages /\
  all_but_last (fun p => List.length (lines_of p) = c) pages /\
  (n = 0%nat -> pages = [[]]) /\
  ((0 < n)%nat ->
   ((List.length pages - 1) * c < n /\ n <= List.length pages * c)%nat).
Proof.
  intros Hc Hfits Hfull pages n.
  assert (Hfirst : fits pageHeight firstBaseline).
  { eapply fits_antitone; [| exact Hfits].
    pose proof (inject_nat_nonneg (pred c)). pose proof lineHeight_pos. nra. }
  assert (Hsum : list_sum (map (fun p => List.length (lines_of p)) pages) = n).
  { subst pages n.
    rewrite <- (map_map lines_of (@List.length string)).
    rewrite <- length_concat_sum, lines_of_pages.
    unfold paginate. rewrite lines_of_place. reflexivity. }
  subst pages. unfold paginate in *.
  set (lines := splitTextToSize text (maxWidth pageWidth)) in *.
  destruct (place_pages pageHeight lines firstBaseline)
    as [p [ps [E [Hstep [Hsteps [Hfit [Hfits' Hbreaks]]]]]]].
  rewrite E in *.
  destruct (full_pages pageHeight c Hfits Hfull (p :: ps)) as [Hle Hall].
  { constructor; assumption. }
  { constructor; [assumption | exact (Hfits' Hfirst)]. }
  { exact Hbreaks. }
  split; [exact Hle |]. split; [exact Hall |]. split.
  - intros Hn. subst n. destruct lines as [| l ls]; [| discriminate].
    cbn in E. injection E as <- <-. reflexivity.
  - intros Hn.
    assert (Hne : Forall (fun q => lines_of q <> []) (p :: ps)).
    { constructor.
      - subst n. destruct lines as [| l ls]; [cbn in Hn; lia |].
        exact (first_page_nonempty _ _ _ _ _ _ Hfirst E).
      - exact (later_pages_nonempty _ _ _ _ _ E). }
    pose proof (sizes_count c
                  (map (fun q => List.length (lines_of q)) (p :: ps)))
      as Hcount.
    rewrite length_map, Hsum in Hcount. apply Hcount.
    + discriminate.
    + rewrite Forall_map. rewrite Forall_forall in Hle, Hne |- *.
      intros q Hq. specialize (Hle q Hq). specialize (Hne q Hq).
      destruct (lines_of q); [congruence | cbn in *; lia].
    + apply all_but_last_map with (f := fun q => List.length (lines_of q))
                                  (P := fun s => s = c).
      exact Hall.
Qed.

Lemma text_pages_hold_c_lines_witness :
  let pages :=
    pages_of (convertTxt (fun text _ => repeat text 100) "a") in
  Forall (fun p => (List.length (lines_of p) <= 48)%nat) pages /\
  all_but_last (fun p => List.length (lines_of p) = 48%nat) pages /\
  (100%nat = 0%nat -> pages = [[]]) /\
  ((0 < 100)%nat ->
   ((List.length pages - 1) * 48 < 100 /\ 100 <= List.length pages * 48)%nat).
Proof.
  apply (text_pages_hold_c_lines a4_width a4_height
           (fun text _ => repeat text 100) "a" 48).
  - lia.
  - unfold fits. vm_compute. discriminate.
  - unfold fits. vm_compute. intros H. apply H. reflexivity.
Defined.

End TextCapacityProperties.

Module ProgressFacts.
Import TxtProgress.

Lemma Math_round_mono (x y : Q) : x <= y -> (Math_round x <= Math_round y)%Z.
Proof.
  intros H. unfold Math_round. apply Qfloor_resp_le. lra.
Qed.

Lemma Math_round_Z (z : Z) : Math_round (inject_Z z) = z.
Proof.
  unfold Math_round.
  assert (Hlo : (z <= Qfloor (inject_Z z + (1#2)))%Z).
  { rewrite <- (Qfloor_Z z) at 1. apply Qfloor_resp_le. lra. }
  assert (Hhi : (Qfloor (inject_Z z + (1#2)) < z + 1)%Z).
  { rewrite Zlt_Qlt, inject_Z_plus. change (inject_Z 1) with 1.
    pose proof (Qfloor_le (inject_Z z + (1#2))). lra. }
  lia.
Qed.

(** The fraction [i / n * 40] for a round [i < n]. *)
Lemma fraction_bounds (n i : nat) :
  (i < n)%nat ->
  0 <= inject_Z (Z.of_nat i) / inject_Z (Z.of_nat n) * 40 /\
  inject_Z (Z.of_nat i) / inject_Z (Z.of_nat n) * 40 <= 40.
Proof.
  intros H.
  assert (Hn : 0 < inject_Z (Z.of_nat n)).
  { change 0 with (inject_Z 0). rewrite <- Zlt_Qlt. lia. }
  assert (Hi : 0 <= inject_Z (Z.of_nat i)) by apply inject_nat_nonneg.
  assert (Hin : inject_Z (Z.of_nat i) <= inject_Z (Z.of_nat n)).
  { rewrite <- Zle_Qle. lia. }
  assert (H0 : 0 <= inject_Z (Z.of_nat i) / inject_Z (Z.of_nat n)).
  { apply Qle_shift_div_l; [assumption | lra]. }
  assert (H1 : inject_Z (Z.of_nat i) / inject_Z (Z.of_nat n) <= 1).
  { apply Qle_shift_div_r; [assumption | lra]. }
  split; lra.
Qed.

Lemma fraction_mono (n i j : nat) :
  (i <= j)%nat -> (0 < n)%nat ->
  inject_Z (Z.of_nat i) / inject_Z (Z.of_nat n) * 40
  <= inject_Z (Z.of_nat j) / inject_Z (Z.of_nat n) * 40.
Proof.
  intros Hij Hn.
  assert (Hn' : 0 < inject_Z (Z.of_nat n)).
  { change 0 with (inject_Z 0). rewrite <- Zlt_Qlt. lia. }
  assert (Hle : inject_Z (Z.of_nat i) <= inject_Z (Z.of_nat j)).
  { rewrite <- Zle_Qle. lia. }
  assert (inject_Z (Z.of_nat i) / inject_Z (Z.of_nat n)
          <= inject_Z (Z.of_nat j) / inject_Z (Z.of_nat n)).
  { unfold Qdiv. apply Qmult_le_compat_r; [assumption |].
    apply Qlt_le_weak, Qinv_lt_0_compat. assumption. }
  lra.
Qed.

Lemma loop_progress_bounds (n i : nat) :
  (i < n)%nat -> (50 <= loop_progress n i <= 90)%Z.
Proof.
  intros H. destruct (fraction_bounds n i H) as [H0 H40].
  unfold loop_progress.
  pose proof (Math_round_mono _ _ H0) as Hlo.
  pose proof (Math_round_mono _ _ H40) as Hhi.
  change (Math_round 0) with (Math_round (inject_Z 0)) in Hlo.
  change (Math_round 40) with (Math_round (inject_Z 40)) in Hhi.
  rewrite Math_round_Z in Hlo, Hhi. lia.
Qed.

Lemma loop_progress_mono (n i j : nat) :
  (i <= j)%nat -> (0 < n)%nat ->
  (loop_progress n i <= loop_progress n j)%Z.
Proof.
  intros Hij Hn. unfold loop_progress.
  pose proof (Math_round_mono _ _ (fraction_mono n i j Hij Hn)). lia.
Qed.

(** The values of the rounds [a], [a + 1], ... are in order. *)
Lemma loop_values_sorted (n len : nat) :
  forall a, (0 < n)%nat ->
  StronglySorted Z.le (map (loop_progress n) (seq a len)).
Proof.
  induction len as [| len IH]; intros a Hn; [constructor |].
  cbn [seq map]. constructor; [apply IH; assumption |].
  apply Forall_forall. intros v Hv.
  apply in_map_iff in Hv as [j [<- Hj]]. apply in_seq in Hj.
  apply loop_progress_mono; lia.
Qed.

Lemma sorted_app (l1 l2 : list Z) :
  StronglySorted Z.le l1 -> StronglySorted Z.le l2 ->
  (forall x y, In x l1 -> In y l2 -> (x <= y)%Z) ->
  StronglySorted Z.le (l1 ++ l2).
Proof.
  intros H1 H2 H12. induction H1 as [| x l1 Hs IH Hx]; [exact H2 |].
  cbn [app]. constructor.
  - apply IH. intros a b Ha Hb. apply H12; [right |]; assumption.
  - apply Forall_app. split; [exact Hx |].
    apply Forall_forall. intros y Hy. apply H12; [left; reflexivity | exact Hy].
Qed.

Lemma loop_values_in (lines : list string) (v : Z) :
  In v (map (loop_progress (List.length lines))
          (seq 0 (List.length lines))) ->
  (50 <= v <= 90)%Z.
Proof.
  intros Hv. apply in_map_iff in Hv as [i [<- Hi]]. apply in_seq in Hi.
  apply loop_progress_bounds. lia.
Qed.
End ProgressFacts.

Section ProgressProperties.
Import TxtProgress ProgressFacts.

(** X16.  During a text conversion that succeeds the progress bar never
    moves backwards: the values reported to [setProgress], from the 5 of
    [convertFile] through the rounds of the loop of [convertTxt] to the
    final 100, are in increasing order, and every value reported inside
    the loop lies between 50 and 90. *)
Theorem text_progress_never_goes_back (lines : list string) :
  StronglySorted Z.le (convertFile_progress lines) /\
  Forall (fun v => (50 <= v <= 90)%Z)
    (map (loop_progress (List.length lines)) (seq 0 (List.length lines))).
Proof.
  split.
  - unfold convertFile_progress, convertTxt_progress.
    set (vs := map (loop_progress (List.length lines))
                 (seq 0 (List.length lines))).
    assert (Hvs : forall v, In v vs -> (50 <= v <= 90)%Z)
      by (intros v; apply loop_values_in).
    assert (Hsorted : StronglySorted Z.le vs).
    { subst vs. destruct lines as [| l ls]; [constructor |].
      apply loop_values_sorted. cbn. lia. }
    assert (E : ([5] ++ ([20; 50] ++ vs ++ [95]) ++ [100]
                 = [5; 20; 50] ++ vs ++ [95; 100])%Z).
    { cbn [app]. rewrite <- app_assoc. reflexivity. }
    rewrite E. apply sorted_app.
    + repeat constructor; lia.
    + apply sorted_app; [exact Hsorted | repeat constructor; lia |].
      intros x y Hx [<- | [<- | []]]; specialize (Hvs x Hx); lia.
    + intros x y Hx Hy. apply in_app_or in Hy.
      assert (Hy' : (50 <= y)%Z).
      { destruct Hy as [Hy | [<- | [<- | []]]]; [| lia | lia].
        specialize (Hvs y Hy). lia. }
      destruct Hx as [<- | [<- | [<- | []]]]; lia.
  - apply Forall_forall. intros v. apply loop_values_in.
Qed.

Example progress_of_four_lines :
  convertFile_progress ["a"; "b"; "c"; "d"]%string
  = [5; 20; 50; 50; 60; 70; 80; 95; 100]%Z.
Proof. reflexivity. Qed.

End ProgressProperties.

(* ================================================================== *)
(** ** [formatBytes]                                                   *)
(* ================================================================== *)

Section FormatBytes.
Import ProgressFacts SliceShape.

Lemma of_uint_le (a b : N) : (a <= b)%N -> of_uint a <= of_uint b.
Proof. intros H. unfold of_uint. rewrite <- Zle_Qle. lia. Qed.

Lemma of_uint_lt_inv (a b : N) : of_uint a < of_uint b -> (a < b)%N.
Proof. unfold of_uint. rewrite <- Zlt_Qlt. lia. Qed.

(** The tenths of a kilobyte that [formatBytes] prints. *)
Lemma kilobyte_tenths (bytes : N) :
  (1024 <= bytes)%N -> (bytes < 1024 * 1024)%N ->
  let x := of_uint bytes / 1024 * of_uint 10 in
  (10 <= Math_round x <= 10240)%Z /\
  ((1048525 <= bytes)%N <-> Math_round x = 10240%Z).
Proof.
  intros Hlo Hhi x.
  assert (HB1 : 1024 <= of_uint bytes) by exact (of_uint_le 1024 bytes Hlo).
  assert (HB2 : of_uint bytes <= 1048575)
    by (apply (of_uint_le bytes 1048575); lia).
  assert (Ex : x == of_uint bytes * (10 # 1024)).
  { unfold x. change (of_uint 10) with 10. field. }
  assert (H10 : (Math_round 10 <= Math_round x)%Z)
    by (apply Math_round_mono; lra).
  assert (Hmax : (Math_round x <= Math_round 10240)%Z)
    by (apply Math_round_mono; lra).
  change (Math_round 10) with 10%Z in H10.
  change (Math_round 10240) with 10240%Z in Hmax.
  split; [lia |]. split.
  - intros Hb.
    assert (HB3 : 1048525 <= of_uint bytes)
      by exact (of_uint_le 1048525 bytes Hb).
    assert (H : (Math_round (102395 # 10) <= Math_round x)%Z)
      by (apply Math_round_mono; lra).
    change (Math_round (102395 # 10)) with 10240%Z in H. lia.
  - intros Hn. pose proof (Math_round_upper x) as Hup. rewrite Hn in Hup.
    change (inject_Z 10240) with 10240 in Hup.
    assert (Hlt : of_uint 1048524 < of_uint bytes).
    { change (of_uint 1048524) with 1048524. lra. }
    apply of_uint_lt_inv in Hlt. lia.
Qed.

(** X17.  For a size of at least 1024 and less than 1024 * 1024 bytes,
    [formatBytes] prints the number of tenths of a kilobyte nearest to the
    size, followed by " KB"; that number goes from 1.0 up to 1024.0, and
    it is 1024.0 exactly for the sizes from 1048525 bytes on, which are
    therefore shown as "1024.0 KB". *)
Theorem formatBytes_kilobytes (bytes : N) :
  (1024 <= bytes)%N ->
  (bytes < 1024 * 1024)%N ->
  exists n : N,
    formatBytes bytes
    = (digits (n / 10) ++ "."
         ++ String (digit_char (n mod 10)) " KB")%string /\
    (10 <= n <= 10240)%N /\
    of_uint bytes * (10 # 1024) - (1#2) < of_uint n /\
    of_uint n <= of_uint bytes * (10 # 1024) + (1#2) /\
    ((1048525 <= bytes)%N <-> n = 10240%N) /\
    ((1048525 <= bytes)%N -> formatBytes bytes = "1024.0 KB"%string).
Proof.
  intros Hlo Hhi.
  destruct (kilobyte_tenths bytes Hlo Hhi) as [Hrange Hmax].
  cbv zeta in Hrange, Hmax.
  set (x := of_uint bytes / 1024 * of_uint 10) in *.
  assert (Ex : x == of_uint bytes * (10 # 1024)).
  { unfold x. change (of_uint 10) with 10. field. }
  assert (Hfmt : formatBytes bytes
                 = (digits (Z.to_N (Math_round x) / 10) ++ "."
                      ++ String (digit_char (Z.to_N (Math_round x) mod 10))
                           " KB")%string).
  { unfold formatBytes.
    destruct (N.ltb_spec bytes 1024) as [H | _]; [lia |].
    destruct (N.ltb_spec bytes (1024 * 1024)) as [_ | H]; [| lia].
    unfold toFixed. fold x. cbn [fraction_digits].
    change (10 ^ N.of_nat 1)%N with 10%N.
    rewrite N.Div0.mod_mod, string_app_assoc. reflexivity. }
  exists (Z.to_N (Math_round x)).
  assert (En : of_uint (Z.to_N (Math_round x)) = inject_Z (Math_round x)).
  { unfold of_uint. rewrite Z2N.id by lia. reflexivity. }
  split; [exact Hfmt |]. split; [lia |].
  split; [rewrite En, <- Ex; apply Math_round_lower |].
  split; [rewrite En, <- Ex; apply Math_round_upper |].
  split.
  - rewrite Hmax. split; intros H; [rewrite H; reflexivity | lia].
  - intros Hb. rewrite Hfmt. apply Hmax in Hb. rewrite Hb. reflexivity.
Qed.

Lemma formatBytes_kilobytes_witness :
  exists n : N,
    formatBytes 1048570
    = (digits (n / 10) ++ "."
         ++ String (digit_char (n mod 10)) " KB")%string /\
    (10 <= n <= 10240)%N /\
    of_uint 1048570 * (10 # 1024) - (1#2) < of_uint n /\
    of_uint n <= of_uint 1048570 * (10 # 1024) + (1#2) /\
    ((1048525 <= 1048570)%N <-> n = 10240%N) /\
    ((1048525 <= 1048570)%N -> formatBytes 1048570 = "1024.0 KB"%string).
Proof.
  apply (formatBytes_kilobytes 1048570); [discriminate | reflexivity].
Defined.

Example formatBytes_examples :
  map formatBytes [0; 1023; 1024; 1587; 1048576; 123456789]%N
  = ["0 B"; "1023 B"; "1.0 KB"; "1.5 KB"; "1.00 MB"; "117.74 MB"]%string.
Proof. vm_compute. reflexivity. Qed.

End FormatBytes.

(* ================================================================== *)
(** ** The page: what selection, conversion and download keep true     *)
(* ================================================================== *)

Module PageFacts.
Import Page.

(** Every accepted file has a converter. *)
Lemma valid_has_converter (file : File) :
  isValidFile file = true ->
  exists c, dispatch (getExtension file) = Normal c.
Proof.
  intros H. apply isValidFile_inv, accepted_cases in H.
  destruct H as [H | [H | [H | [H | [H | H]]]]]; rewrite H;
    eexists; reflexivity.
Qed.

Lemma download_name_not_empty (file : File) :
  String.eqb (download_name file) "" = false.
Proof.
  unfold download_name. destruct (remove_ext (file_name file)); reflexivity.
Qed.

Section WithBlob.
Variable Blob : Type.

(** What every state the page can reach satisfies. *)
Definition reachable_inv (st : App Blob) : Prop :=
  (forall f, selectedFile st = Some f -> isValidFile f = true) /\
  Forall (fun f => isValidFile f = true) (pending st) /\
  (filePreview_shown st = true <-> selectedFile st <> None) /\
  (download_shown st = true ->
   generatedPdfBlob st <> None /\
   exists f, selectedFile st = Some f /\
             data_filename st = Some (download_name f)).

Lemma initial_inv : reachable_inv (@initial Blob).
Proof.
  unfold reachable_inv, initial. cbn. repeat split; try constructor;
    intros; try discriminate; congruence.
Qed.

Lemma Forall_remove_nth {A : Type} (P : A -> Prop) (l : list A) :
  forall k, Forall P l -> Forall P (remove_nth k l).
Proof.
  induction l as [| x l IH]; intros k H; [destruct k; constructor |].
  inversion H; subst. destruct k as [| k]; cbn; [assumption |].
  constructor; [assumption | apply IH; assumption].
Qed.

Lemma step_inv (st : App Blob) (ev : event Blob) :
  reachable_inv st -> reachable_inv (step st ev).
Proof.
  intros Hinv. pose proof Hinv as [Hsel [Hpend [Hprev Hdown]]].
  destruct ev as [file | | | k result].
  - (* a file is chosen *)
    cbn [step]. unfold handleFileSelected.
    destruct (isValidFile file) eqn:Hvalid; cbn [negb].
    + unfold reachable_inv. cbn. split; [| split; [| split]].
      * intros f E. injection E as <-. exact Hvalid.
      * exact Hpend.
      * split; intros _; [discriminate | reflexivity].
      * discriminate.
    + unfold reachable_inv. cbn. split; [| split; [| split]]; assumption.
  - (* the file is removed *)
    unfold reachable_inv. cbn. split; [| split; [| split]].
    + discriminate.
    + exact Hpend.
    + split; [discriminate | congruence].
    + discriminate.
  - (* the convert button is clicked *)
    cbn [step]. destruct (convertBtn_disabled st); [exact Hinv |].
    unfold convertFile_start.
    destruct (selectedFile st) as [file |] eqn:Esel; [| exact Hinv].
    destruct (valid_has_converter file (Hsel file eq_refl)) as [c Hc].
    rewrite Hc. unfold reachable_inv. cbn.
    split; [| split; [| split]].
    + exact Hsel.
    + apply Forall_app. split; [assumption |].
      constructor; [apply Hsel; reflexivity | constructor].
    + exact Hprev.
    + discriminate.
  - (* a conversion ends *)
    cbn [step]. destruct (nth_error (pending st) k); [| exact Hinv].
    pose proof (Forall_remove_nth _ _ k Hpend) as Hpend'.
    unfold convertFile_finish, with_pending. cbn.
    destruct result as [blob |].
    + destruct (selectedFile st) as [file |] eqn:Esel.
      * unfold reachable_inv. cbn.
        split; [| split; [| split]].
        -- exact Hsel.
        -- exact Hpend'.
        -- exact Hprev.
        -- intros _. split; [discriminate |].
           exists file. split; reflexivity.
      * unfold reachable_inv. cbn.
        split; [| split; [| split]].
        -- exact Hsel.
        -- exact Hpend'.
        -- exact Hprev.
        -- intros H. apply Hdown in H as [_ [g [E _]]]. discriminate.
    + unfold reachable_inv. cbn. split; [| split; [| split]]; assumption.
Qed.

(** The two steps that depend on the file: an accepted file is
    selected, and its conversion is started. *)
Lemma select_valid (st : App Blob) (file : File) :
  isValidFile file = true ->
  step st (Select file)
  = mkApp Blob (Some file) None (icon_label (getExtension file))
      true false (progress_shown st) false None (data_filename st)
      (pending st).
Proof.
  intros H. cbn [step]. unfold handleFileSelected. rewrite H. reflexivity.
Qed.

Lemma click_valid (st : App Blob) (file : File) :
  convertBtn_disabled st = false ->
  selectedFile st = Some file ->
  isValidFile file = true ->
  step st ClickConvert
  = mkApp Blob (Some file) (generatedPdfBlob st) (fileTypeIcon st)
      (filePreview_shown st) true true false None (data_filename st)
      (pending st ++ [file]).
Proof.
  intros Hbtn Hsel Hvalid. cbn [step]. rewrite Hbtn.
  unfold convertFile_start. rewrite Hsel.
  destruct (valid_has_converter file Hvalid) as [c Hc]. rewrite Hc.
  reflexivity.
Qed.

Lemma run_inv (evs : list (event Blob)) :
  forall st, reachable_inv st -> reachable_inv (run st evs).
Proof.
  induction evs as [| ev evs IH]; intros st H; [exact H |].
  cbn [run fold_left]. apply IH. apply step_inv. exact H.
Qed.
End WithBlob.
End PageFacts.

Section PageProperties.
Import Page PageFacts.

(** X18.  Whatever is chosen, removed, clicked or converted on the page,
    in whatever order, the selected file, when there is one, is a file
    that [isValidFile] accepts, and so are the files under conversion;
    the file card is shown exactly when a file is selected; and
    [convertFile] has a converter for the selected file, so it never
    throws "Unsupported file type.". *)
Theorem selection_is_always_valid
  (Blob : Type) (evs : list (event Blob)) :
  let st := run initial evs in
  (forall f, selectedFile st = Some f ->
             isValidFile f = true /\
             exists c, dispatch (getExtension f) = Normal c) /\
  Forall (fun f => isValidFile f = true) (pending st) /\
  (filePreview_shown st = true <-> selectedFile st <> None).
Proof.
  intros st.
  destruct (run_inv Blob evs initial (initial_inv Blob))
    as [Hsel [Hpend [Hprev _]]].
  split; [| split; assumption].
  intros f Hf. split; [apply Hsel; exact Hf |].
  apply valid_has_converter. apply Hsel. exact Hf.
Qed.

(** X19.  Whatever happened on the page before, when the download
    section is shown a click on the download button delivers a PDF, and
    delivers it under the download name of the file that is selected at
    that moment, never under the fallback name "converted.pdf". *)
Theorem shown_download_is_named_after_selection
  (Blob : Type) (evs : list (event Blob)) :
  let st := run initial evs in
  download_shown st = true ->
  exists blob f,
    selectedFile st = Some f /\
    download st = Some (blob, download_name f).
Proof.
  intros st Hshown.
  destruct (run_inv Blob evs initial (initial_inv Blob))
    as [_ [_ [_ Hdown]]].
  destruct (Hdown Hshown) as [Hblob [f [Hsel Hname]]].
  fold st in Hblob, Hsel, Hname.
  destruct (generatedPdfBlob st) as [blob |] eqn:Eblob; [| congruence].
  exists blob, f. split; [exact Hsel |].
  unfold download. rewrite Eblob, Hname, download_name_not_empty.
  reflexivity.
Qed.

Lemma shown_download_is_named_after_selection_witness :
  let st :=
    run (@initial nat)
      [Select (mkFile "notes.txt"); ClickConvert; Converted 0 (Some 7%nat)] in
  exists blob f,
    selectedFile st = Some f /\
    download st = Some (blob, download_name f).
Proof.
  apply (shown_download_is_named_after_selection nat
           [Select (mkFile "notes.txt"); ClickConvert;
            Converted 0 (Some 7%nat)]).
  reflexivity.
Defined.

(** X20.  A conversion under way is not tied to the selection: when
    another accepted file is chosen before the conversion of the first
    one ends, the PDF made from the first file is stored and offered for
    download under the name of the second; and when the file is removed
    before the conversion ends, the PDF is stored all the same, an error
    is shown, and the convert button is enabled with no file selected. *)
Theorem conversion_outlives_selection
  (Blob : Type) (first second : File) (blob : Blob) :
  isValidFile first = true ->
  isValidFile second = true ->
  let st :=
    run initial
      [Select first; ClickConvert; Select second; Converted 0 (Some blob)] in
  let st' :=
    run initial [Select first; ClickConvert; Remove; Converted 0 (Some blob)] in
  (pending (run (@initial Blob) [Select first; ClickConvert; Select second])
   = [first] /\
   selectedFile st = Some second /\
   download_shown st = true /\
   download st = Some (blob, download_name second)) /\
  (selectedFile st' = None /\
   generatedPdfBlob st' = Some blob /\
   status st' = Some error /\
   download_shown st' = false /\
   convertBtn_disabled st' = false).
Proof.
  intros H1 H2. cbn [run fold_left].
  rewrite (select_valid Blob initial first H1).
  rewrite (click_valid Blob _ first); [| reflexivity | reflexivity | exact H1].
  rewrite (select_valid Blob _ second H2).
  cbn. unfold download. cbn. rewrite download_name_not_empty.
  repeat split.
Qed.

Lemma conversion_outlives_selection_witness :
  let first := mkFile "a.docx" in
  let second := mkFile "b.txt" in
  let st :=
    run (@initial nat)
      [Select first; ClickConvert; Select second; Converted 0 (Some 7%nat)] in
  let st' :=
    run (@initial nat)
      [Select first; ClickConvert; Remove; Converted 0 (Some 7%nat)] in
  (pending (run (@initial nat) [Select first; ClickConvert; Select second])
   = [first] /\
   selectedFile st = Some second /\
   download_shown st = true /\
   download st = Some (7%nat, download_name second)) /\
  (selectedFile st' = None /\
   generatedPdfBlob st' = Some 7%nat /\
   status st' = Some error /\
   download_shown st' = false /\
   convertBtn_disabled st' = false).
Proof.
  apply (conversion_outlives_selection nat (mkFile "a.docx") (mkFile "b.txt")
           7%nat); reflexivity.
Defined.

End PageProperties.

(* ================================================================== *)
(** ** More on [htmlStringToPdf]: the slice without rows               *)
(* ================================================================== *)

Section SliceRows.
Import HtmlStringToPdf SliceLoop.

(** On the A4 page a page is more than one row of the canvas high. *)
Lemma a4_page_rows (canvas : Canvas) :
  (0 < canvas_width canvas)%N ->
  1 <= page_rows a4_width a4_height canvas.
Proof.
  intros Hcw. unfold page_rows, ratio_of, imgW, margin.
  assert (Hw : 1 <= of_uint (canvas_width canvas)).
  { unfold of_uint. change 1 with (inject_Z 1). rewrite <- Zle_Qle. lia. }
  assert (E : a4_height * (of_uint (canvas_width canvas) / (a4_width - 0 * 2))
              == (84189 # 59528) * of_uint (canvas_width canvas))
    by (unfold a4_height, a4_width; field).
  rewrite E. lra.
Qed.

(** X21.  [htmlStringToPdf] fails on a canvas that ends less than half a
    row below a page end: when the canvas, of positive width, fills [k]
    A4 pages and goes on for more than nothing and less than half a row,
    round [k + 1] of the loop gives its slice canvas
    [Math.round(sliceH * ratio) = 0] rows, [doc.addImage] throws on the
    empty picture, and the call ends in that error: no PDF is returned,
    whatever was drawn before. *)
Theorem htmlStringToPdf_fails_on_sliver (canvas : Canvas) (k : nat) :
  (0 < canvas_width canvas)%N ->
  inject_Z (Z.of_nat k) * page_rows a4_width a4_height canvas
  < of_uint (canvas_height canvas) ->
  of_uint (canvas_height canvas)
  < inject_Z (Z.of_nat k) * page_rows a4_width a4_height canvas + (1#2) ->
  htmlStringToPdf canvas (S k) = Throw empty_image_message /\
  (forall fuel ds, htmlStringToPdf canvas fuel <> Normal ds).
Proof.
  intros Hcw Hlo Hhi.
  assert (Hw : 0 < a4_width) by reflexivity.
  assert (Hp : 0 < a4_height) by reflexivity.
  pose proof (a4_page_rows canvas Hcw) as Hrows.
  pose proof (imgH_ratio a4_width canvas Hw Hcw) as Hch.
  unfold page_rows in Hlo, Hhi, Hrows.
  assert (Hthrow : htmlStringToPdf canvas (S k) = Throw empty_image_message).
  { unfold htmlStringToPdf. rewrite paginate_loop by assumption.
    apply loop_sliver.
    - apply ratio_pos; assumption.
    - lra.
    - rewrite Hch. exact Hlo.
    - rewrite Hch. exact Hhi. }
  split; [exact Hthrow |].
  intros fuel ds Hrun.
  assert (E : Throw empty_image_message = Normal ds).
  { apply (paginate_fuel_independent a4_width a4_height canvas Hw Hcw
             (S k) fuel); try assumption; discriminate. }
  discriminate E.
Qed.

Lemma htmlStringToPdf_fails_on_sliver_witness :
  htmlStringToPdf (mkCanvas 1191 6738) 5 = Throw empty_image_message /\
  (forall fuel ds, htmlStringToPdf (mkCanvas 1191 6738) fuel <> Normal ds).
Proof.
  apply (htmlStringToPdf_fails_on_sliver (mkCanvas 1191 6738) 4);
    reflexivity.
Defined.

End SliceRows.
